(** * Verification of [_export_repo.py]

    The script walks the directory it is started in, leaves out a fixed set of
    directory names, draws the remaining files as a tree and appends every
    file's text to one export document.

    Conventions of the embedding:
    - a path is the list of its parts ([Path.parts]); the parts of an absolute
      POSIX path start with the anchor ["/"];
    - Python [str] values are represented by their UTF-8 encoding, a Rocq
      [string] (a byte sequence).  Comparing two [str] by code points is the
      same as comparing their UTF-8 encodings byte by byte, writing a [str] to
      a file opened with [encoding='utf-8'] writes the representation itself,
      and ['\n'] is the single byte 10 in it;
    - the directory tree is a value of type [node]; what [os.walk] reports as
      [filenames] (every entry that is not a directory) is a [File]; names
      are well-formed text;
    - module-level variables of the script ([files], [children], [lines]) are
      the fields of the record [globals], threaded through the functions that
      mutate them. *)

From Stdlib Require Import String Ascii List OrderedTypeEx.
From stdpp Require Import gmap strings list sorting.

Local Open Scope string_scope.
Local Open Scope list_scope.

(** ** Text *)

Definition LF : ascii := "010"%char.
Definition CR : ascii := "013"%char.

(** ['\n'] *)
Definition nl : string := String LF "".

(** [s.endswith('\n')] *)
Fixpoint endswith_nl (s : string) : bool :=
  match s with
  | "" => false
  | String c "" => bool_decide (c = LF)
  | String _ s' => endswith_nl s'
  end.

(** Strict UTF-8 well-formedness of a byte sequence, as Python's ['utf-8']
    codec decides it: shortest forms only, no surrogates, nothing above
    U+10FFFF. *)
Definition in_range (lo hi : N) (c : ascii) : bool :=
  (lo <=? N_of_ascii c)%N && (N_of_ascii c <=? hi)%N.

Definition cont (c : ascii) : bool := in_range 128 191 c.

Fixpoint utf8_valid (s : string) : bool :=
  match s with
  | "" => true
  | String c1 r1 =>
    if in_range 0 127 c1 then utf8_valid r1 else
    match r1 with
    | "" => false
    | String c2 r2 =>
      if in_range 194 223 c1 then cont c2 && utf8_valid r2 else
      match r2 with
      | "" => false
      | String c3 r3 =>
        if in_range 224 239 c1 then
          (if in_range 224 224 c1 then in_range 160 191 c2
           else if in_range 237 237 c1 then in_range 128 159 c2
           else cont c2) && cont c3 && utf8_valid r3
        else
        match r3 with
        | "" => false
        | String c4 r4 =>
          in_range 240 244 c1 &&
          (if in_range 240 240 c1 then in_range 144 191 c2
           else if in_range 244 244 c1 then in_range 128 143 c2
           else cont c2) && cont c3 && cont c4 && utf8_valid r4
        end
      end
    end
  end.

(** [bytes.decode('utf-8')]: [None] stands for [UnicodeDecodeError].  In the
    UTF-8 representation of text a successful decoding changes nothing. *)
Definition utf8_decode (b : string) : option string :=
  if utf8_valid b then Some b else None.

(** [bytes.decode('latin-1')]: byte [n] is the code point [n]; code points
    from 128 on take two bytes in UTF-8.  It is defined on every input. *)
Definition latin1_char (c : ascii) : string :=
  let n := N_of_ascii c in
  if (n <? 128)%N then String c ""
  else String (ascii_of_N (192 + n / 64)) (String (ascii_of_N (128 + n mod 64)) "").

Fixpoint latin1_decode (b : string) : string :=
  match b with
  | "" => ""
  | String c r => latin1_char c +:+ latin1_decode r
  end.

(** Reading in text mode with the default [newline=None]: ["\r\n"] and a lone
    ["\r"] both arrive as ["\n"]. *)
Fixpoint universal_newlines (s : string) : string :=
  match s with
  | "" => ""
  | String c r =>
    if bool_decide (c = CR) then
      match r with
      | String c' r' =>
        if bool_decide (c' = LF) then String LF (universal_newlines r')
        else String LF (universal_newlines r)
      | "" => String LF ""
      end
    else String c (universal_newlines r)
  end.

(** ** Paths *)

Abbreviation path := (list string).

(** [rel.as_posix()] of a relative path *)
Definition as_posix (rel : path) : string :=
  match rel with
  | [] => "."
  | _ => String.concat "/" rel
  end.

(** [str(root)] of an absolute path *)
Definition path_str (p : path) : string :=
  match p with
  | "/" :: rest => "/" +:+ String.concat "/" rest
  | _ => as_posix p
  end.

(** [p.relative_to(root)]; [None] stands for the [ValueError] raised when
    [root] is not a leading part of [p]. *)
Fixpoint relative_to (p root : path) {struct root} : option path :=
  match root, p with
  | [], _ => Some p
  | r :: root', s :: p' => if bool_decide (r = s) then relative_to p' root' else None
  | _ :: _, [] => None
  end.

(** ** Orders and sorting *)

(** [p < q] on [Path] objects: the parts are compared as sequences, each part
    as a string. *)
Definition path_lt (p q : path) : bool :=
  match list_compare String.compare p q with
  | Lt => true
  | _ => false
  end.

(** [(b1, s1) < (b2, s2)] on the sort keys of [sort_children]; [False < True]. *)
Definition key_lt (k1 k2 : bool * string) : bool :=
  match k1.1, k2.1 with
  | false, true => true
  | true, false => false
  | _, _ => String.ltb k1.2 k2.2
  end.

(** [sorted] and [list.sort] are stable and compare with [<] only.  Every
    stable sort returns the same list; this one inserts each element in
    front of the first element that is not smaller. *)
Fixpoint insert_sorted {A} (lt : A → A → bool) (x : A) (l : list A) : list A :=
  match l with
  | [] => [x]
  | y :: l' => if lt y x then y :: insert_sorted lt x l' else x :: l
  end.

Definition sorted {A} (lt : A → A → bool) (l : list A) : list A :=
  foldr (insert_sorted lt) [] l.

(** ** The directory tree *)

(** What reading a file's bytes gives when the dump loop gets to it: the
    bytes, or an [OSError] (the file is gone, permission is denied) whose
    [str] is [msg]. *)
Inductive read_result :=
  | ReadOk (data : string)
  | ReadErr (msg : string).

#[warnings="-register-all"]
Inductive node :=
  | File (data : read_result)
  | Dir (entries : list (string * node)).

(** The entry called [name] of a directory listing *)
Fixpoint entry (name : string) (es : list (string * node)) : option node :=
  match es with
  | [] => None
  | (n, x) :: es' => if bool_decide (n = name) then Some x else entry name es'
  end.

(** The node at a path relative to [d] *)
Fixpoint resolve (d : node) (rel : path) : option node :=
  match rel with
  | [] => Some d
  | name :: rel' =>
    match d with
    | Dir es =>
      match entry name es with
      | Some x => resolve x rel'
      | None => None
      end
    | File _ => None
    end
  end.

Definition is_dir (d : node) (rel : path) : bool :=
  match resolve d rel with
  | Some (Dir _) => true
  | _ => false
  end.

Definition is_file (d : node) (rel : path) : bool :=
  match resolve d rel with
  | Some (File _) => true
  | _ => false
  end.

Definition node_is_dir (x : node) : bool :=
  match x with Dir _ => true | File _ => false end.

(** The two lists [os.walk] builds for one directory *)
Definition dirnames_of (es : list (string * node)) : list string :=
  (filter (λ e, node_is_dir e.2 = true) es).*1.

Definition filenames_of (es : list (string * node)) : list string :=
  (filter (λ e, node_is_dir e.2 = false) es).*1.

(** Depth of the tree: a bound on the length of every path that resolves *)
Fixpoint height (d : node) : nat :=
  match d with
  | File _ => 0
  | Dir es => S (max_list (map (λ e, height e.2) es))
  end.

(** Names are unique within every directory *)
Fixpoint wf_node (d : node) : bool :=
  match d with
  | File _ => true
  | Dir es => bool_decide (NoDup es.*1) && forallb (λ e, wf_node e.2) es
  end.

(** ** The program *)

(** [exclude_dirs] *)
Definition exclude_dirs : gset string :=
  {[ "node_modules"; ".next"; "dist"; ".git" ]}.

(** The name of the export document, [output = root / '_repo_export.txt'] *)
Definition output_name : string := "_repo_export.txt".

(** The connectors and the continuation guide of [add_tree], byte for byte as
    the script's literals hold them. *)
Definition connector_last : string := "â””â”€â”€ ".
Definition connector_more : string := "â”œâ”€â”€ ".
Definition extension_last : string := "    ".
Definition extension_more : string := "â”‚   ".

(** [os.walk(top)], top-down.  Each step yields [(dirpath, dirnames,
    filenames)]; the loop body may cut [dirnames] down in place before the
    walk goes on into what is left of it.  [keep] is that cut: the walk
    yields the list already cut and descends into the kept directories, in
    listing order. *)
Fixpoint os_walk (keep : string → bool) (top : path) (d : node)
    : list (path * list string * list string) :=
  match d with
  | File _ => []
  | Dir es =>
    (top, filter (λ n, keep n = true) (dirnames_of es), filenames_of es) ::
    flat_map (λ e,
      if node_is_dir e.2 && keep e.1 then os_walk keep (top ++ [e.1]) e.2 else []) es
  end.

(** [d not in exclude_dirs] *)
Definition not_excluded (d : string) : bool := bool_decide (d ∉ exclude_dirs).

(** [any(part in exclude_dirs for part in p.parts)] *)
Definition any_excluded (p : path) : bool :=
  existsb (λ part, bool_decide (part ∈ exclude_dirs)) p.

(** The module-level variables the script fills and mutates *)
Record globals := Globals {
  g_files : list path;
  g_children : gmap path (list string);
  (** each line of [lines] carries the relative path of the entry it shows;
      only the text is written to the document *)
  g_lines : list (path * string);
}.

Definition set_children (ch : gmap path (list string)) (g : globals) : globals :=
  Globals (g_files g) ch (g_lines g).

(** [lines.append(text)], for the line that shows [shown] *)
Definition append_line (shown : path) (text : string) (g : globals) : globals :=
  Globals (g_files g) (g_children g) (g_lines g ++ [(shown, text)]).

(** The body of the inner registration loop:
    [if child not in children[parent]: children[parent].append(child)].
    Indexing a [defaultdict] creates a missing key with an empty list. *)
Definition register (parent : path) (child : string)
    (ch : gmap path (list string)) : gmap path (list string) :=
  let l := default [] (ch !! parent) in
  if bool_decide (child ∈ l) then <[parent := l]> ch
  else <[parent := l ++ [child]]> ch.

(** [for i in range(len(parts)): parent = parts[:i]; child = parts[i]; ...] *)
Definition register_parts (parts : path)
    (ch : gmap path (list string)) : gmap path (list string) :=
  foldl (λ ch ic, register (take ic.1 parts) ic.2 ch) ch (imap pair parts).

(** [sort_children]'s key, [(not is_dir(root / parent / x), x.lower())] *)
Definition sort_key (lower : string → string) (fs : node) (parent : path)
    (x : string) : bool * string :=
  (negb (is_dir fs (parent ++ [x])), lower x).

(** The placeholder written in place of the content of a file that could
    not be read *)
Definition placeholder (msg : string) : string :=
  "[Error reading file: " +:+ msg +:+ "]".

(** [f.write(s)] on the open document: [w] is everything written to it so
    far. *)
Definition write (s : string) (w : string) : string := w +:+ s.

(** The result of a call that may raise: the text returned, or the [str]
    of the exception. *)
Inductive outcome :=
  | Returned (text : string)
  | Raised (msg : string).

(** [path.read_text(encoding=...)] once the bytes are there *)
Definition decoded (text : string) : outcome := Returned (universal_newlines text).

(** [read_text_safely(path)].  [read] is the state of the disk at the
    call.  An [OSError] of the first read is no [UnicodeDecodeError] and
    leaves the function; the handler reads the file a second time. *)
Definition read_text_safely (read : path → read_result) (p : path) : outcome :=
  match read p with
  | ReadErr msg => Raised msg
  | ReadOk b =>
    match utf8_decode b with
    | Some text => decoded text
    | None =>
      match read p with
      | ReadErr msg => Raised msg
      | ReadOk b' => decoded (latin1_decode b')
      end
    end
  end.

Section Program.

(** [root]: the parts of the absolute path of the directory the script is
    started in, and [fs]: the tree found there. *)
Variable root : path.
Variable fs : node.
(** [str.lower] *)
Variable lower : string → string.
(** How many of the bytes written to the open document so far have left
    the writer's buffer and are in the file. *)
Variable flushed : string → nat.

(** [output] *)
Definition output : path := root ++ [output_name].

(** The first loop: [files] when the walk is over. *)
Definition files : list path :=
  flat_map (λ step : path * list string * list string,
    let '(dirpath, _, filenames) := step in
    flat_map (λ name,
      let p := dirpath ++ [name] in
      if any_excluded p then [] else [p]) filenames)
    (os_walk not_excluded root fs).

(** The second loop: [children] when every file is registered.  [None] is
    the [ValueError] of [relative_to]. *)
Fixpoint build_children (ps : list path)
    (ch : gmap path (list string)) : option (gmap path (list string)) :=
  match ps with
  | [] => Some ch
  | p :: ps' =>
    rel ← relative_to p root;
    build_children ps' (register_parts rel ch)
  end.

(** [sort_children(parent)]: [children.get(parent, [])] is the list held
    by the index itself whenever the key is there, so sorting it in place
    changes the index. *)
Definition sort_children (parent : path) (g : globals) : list string * globals :=
  match g_children g !! parent with
  | Some l =>
    let entries :=
      sorted (λ x y, key_lt (sort_key lower fs parent x) (sort_key lower fs parent y)) l in
    (entries, set_children (<[parent := entries]> (g_children g)) g)
  | None => ([], g)
  end.

(** The loop of [add_tree] over [enumerate(entries)], from index [i] on.
    [n] is [len(entries)] and [recur] the recursive call. *)
Fixpoint add_entries (recur : path → string → globals → option globals)
    (parent : path) (prefix : string) (n i : nat) (entries : list string)
    (g : globals) : option globals :=
  match entries with
  | [] => Some g
  | name :: rest =>
    let is_last := bool_decide (i = n - 1) in
    let connector := if is_last then connector_last else connector_more in
    let child_parts := parent ++ [name] in
    let g1 := append_line child_parts (prefix +:+ connector +:+ name) g in
    g2 ← (if is_dir fs child_parts then
            recur child_parts
              (prefix +:+ (if is_last then extension_last else extension_more)) g1
          else Some g1);
    add_entries recur parent prefix n (S i) rest g2
  end.

(** [add_tree(parent, prefix)].  The recursion follows the directories of
    [fs]; [fuel] bounds its depth and [None] means the bound was hit. *)
Fixpoint add_tree (fuel : nat) (parent : path) (prefix : string)
    (g : globals) : option globals :=
  match fuel with
  | 0 => None
  | S fuel' =>
    let '(entries, g1) := sort_children parent g in
    add_entries (add_tree fuel') parent prefix (length entries) 0 entries g1
  end.

Section Dump.

(** [read w p]: the bytes of [p] on disk at a moment when [w] has been
    written to the document. *)
Variable read : string → path → read_result.

(** [content] after the [try] statement of the dump loop *)
Definition content_of (w : string) (p : path) : string :=
  match read_text_safely (read w) p with
  | Returned text => text
  | Raised msg => placeholder msg
  end.

(** One pass of the loop [for p in sorted(files)] *)
Definition dump_file (p : path) (w : string) : option string :=
  rel ← relative_to p root;
  let w := write ("--- FILE: " +:+ as_posix rel +:+ " ---" +:+ nl) w in
  let content := content_of w p in
  let w := write content w in
  let w := if endswith_nl content then w else write nl w in
  Some (write nl w).

Fixpoint dump_files (ps : list path) (w : string) : option string :=
  match ps with
  | [] => Some w
  | p :: ps' => w' ← dump_file p w; dump_files ps' w'
  end.

(** Everything the [with] block writes, from the document as it is
    after [open('w')]. *)
Definition write_document (g : globals) : option string :=
  let w := write ("REPO TREE" +:+ nl) "" in
  let w := write ("========" +:+ nl) w in
  let w := write (String.concat nl (g_lines g).*2) w in
  let w := write (nl +:+ nl) w in
  let w := write ("FILE CONTENTS (latest)" +:+ nl) w in
  let w := write ("======================" +:+ nl +:+ nl) w in
  dump_files (sorted path_lt (g_files g)) w.

(** *** The document as a sequence of file sections

    The loop writes one section per file.  [file_section w p] is the
    text one pass adds for [p] to a document that holds [w], and
    [file_sections] lists the sections of a whole run of the loop, each
    with the path it was written for.  [dump_files_sections] below
    shows that the loop writes exactly these texts, in this order. *)
Definition delimiter (rel : path) : string :=
  "--- FILE: " +:+ as_posix rel +:+ " ---" +:+ nl.

Definition file_section (w : string) (p : path) : option string :=
  rel ← relative_to p root;
  let content := content_of (w +:+ delimiter rel) p in
  Some (delimiter rel +:+ content +:+ (if endswith_nl content then "" else nl) +:+ nl).

Fixpoint file_sections (ps : list path) (w : string) : option (list (path * string)) :=
  match ps with
  | [] => Some []
  | p :: ps' =>
    s ← file_section w p;
    rest ← file_sections ps' (w +:+ s);
    Some ((p, s) :: rest)
  end.

(** What the document holds when the dump loop starts *)
Definition preamble (g : globals) : string :=
  "REPO TREE" +:+ nl +:+ "========" +:+ nl +:+
  String.concat nl (g_lines g).*2 +:+ nl +:+ nl +:+
  "FILE CONTENTS (latest)" +:+ nl +:+ "======================" +:+ nl +:+ nl.

End Dump.

(** The disk as the dump loop finds it.  [output.open('w')] has emptied
    the document, and of the text [w] written since, the first
    [flushed w] bytes are in the file; every other file is as [fs] has
    it. *)
Definition disk_read (w : string) (p : path) : read_result :=
  if bool_decide (p = output) then ReadOk (String.substring 0 (flushed w) w)
  else
    match relative_to p root ≫= resolve fs with
    | Some (File data) => data
    | Some (Dir _) => ReadErr "Is a directory"
    | None => ReadErr "No such file or directory"
    end.

(** The state when the tree is drawn: [files] and [children] built,
    [lines] holding the root line and the tree below it. *)
Definition draw_tree : option globals :=
  ch ← build_children files ∅;
  let g := Globals files ch [] in
  let g := append_line [] (path_str root) g in
  add_tree (S (height fs)) [] "" g.

(** The whole script: the text of the export document, or [None] when an
    exception ends the run.  Opening the document for writing fails when
    a directory has its name. *)
Definition run : option string :=
  g ← draw_tree;
  if is_dir fs [output_name] then None
  else write_document disk_read g.

(** The file sections of the document [run] writes *)
Definition run_sections : option (list (path * string)) :=
  g ← draw_tree;
  if is_dir fs [output_name] then None
  else file_sections disk_read (sorted path_lt (g_files g)) (preamble g).

End Program.

(** ** Vocabulary of the statements *)

(** [x <= y] for a sort that compares with [lt]: [y < x] is false. *)
Definition le_of {A} (lt : A → A → bool) (x y : A) : Prop := lt y x = false.


(** [k1 <= k2] on sort keys *)
Definition key_le (k1 k2 : bool * string) : Prop := key_lt k2 k1 = false.

(** The first loop, from any directory [top] on *)
Definition files_from (top : path) (d : node) : list path :=
  flat_map (λ step : path * list string * list string,
    let '(dirpath, _, filenames) := step in
    flat_map (λ name,
      let p := dirpath ++ [name] in
      if any_excluded p then [] else [p]) filenames)
    (os_walk not_excluded top d).

(** [child] is listed under [parent] *)
Definition has_child (ch : gmap path (list string)) (parent : path) (child : string) : Prop :=
  ∃ l, ch !! parent = Some l ∧ child ∈ l.

(** The registration loop, by recursion on the parts still to come *)
Fixpoint register_from (pre rest : path) (ch : gmap path (list string))
    : gmap path (list string) :=
  match rest with
  | [] => ch
  | c :: rest' => register_from (pre ++ [c]) rest' (register pre c ch)
  end.

Section ChildOrder.
Variable fs : node.
Variable lower : string → string.

(** The order of the entries below [parent]: directories first, then by
    lower-cased name. *)
Definition child_le (parent : path) (x y : string) : Prop :=
  (is_dir fs (parent ++ [y]) = true → is_dir fs (parent ++ [x]) = true) ∧
  (is_dir fs (parent ++ [x]) = is_dir fs (parent ++ [y]) →
   String.leb (lower x) (lower y) = true).

Definition child_lt (parent : path) (x y : string) : bool :=
  key_lt (sort_key lower fs parent x) (sort_key lower fs parent y).

End ChildOrder.

(** A line appended below [parent] shows an entry the index lists, at or
    below [parent]. *)
Definition shown_ok (ch : gmap path (list string)) (parent : path)
    (ln : path * string) : Prop :=
  ∃ par c, ln.1 = par ++ [c] ∧ has_child ch par c ∧ parent `prefix_of` par.

(** A line for an entry directly in [parent] *)
Definition direct (parent : path) (ln : path * string) : Prop :=
  length ln.1 = S (length parent).

Global Instance direct_dec parent ln : Decision (direct parent ln).
Proof. unfold direct. apply _. Defined.

(** What drawing the tree below [parent] does to the globals: [files] is
    left alone, the index lists the same entries, and [lines] grows by
    lines for indexed entries; those for the entries directly in [parent]
    come in the order of [entries]. *)
Record tree_spec (parent : path) (entries : list string) (g g' : globals) : Prop := {
  ts_files : g_files g' = g_files g;
  ts_children : ∀ par c,
    has_child (g_children g') par c ↔ has_child (g_children g) par c;
  ts_lines : ∃ new,
    g_lines g' = g_lines g ++ new ∧
    Forall (shown_ok (g_children g) parent) new ∧
    (filter (direct parent) new).*1 = (λ c, parent ++ [c]) <$> entries;
}.

(** The tree with [old] as what the export document of an earlier run
    holds, when there is one *)
Definition with_old_entry (old : read_result) (e : string * node) : string * node :=
  match e.2 with
  | File _ => if bool_decide (e.1 = output_name) then (e.1, File old) else e
  | Dir _ => e
  end.

Definition with_old (old : read_result) (fs : node) : node :=
  match fs with
  | File data => File data
  | Dir es => Dir (with_old_entry old <$> es)
  end.

(** [s] has a line break in it *)
Fixpoint has_nl (s : string) : bool :=
  match s with
  | "" => false
  | String c r => bool_decide (c = LF) || has_nl r
  end.

(** *** The tree as a function of the index

    [render] draws the tree below [parent] from an index that nothing
    changes: the lines [add_tree] appends, without the globals.  At fuel 0
    it draws nothing. *)
Fixpoint render_entries (recur : path → string → list (path * string))
    (fs : node) (parent : path) (prefix : string) (n i : nat)
    (entries : list string) : list (path * string) :=
  match entries with
  | [] => []
  | name :: rest =>
    let is_last := bool_decide (i = n - 1) in
    let child_parts := parent ++ [name] in
    (child_parts,
     prefix +:+ (if is_last then connector_last else connector_more) +:+ name) ::
    (if is_dir fs child_parts then
       recur child_parts (prefix +:+ (if is_last then extension_last else extension_more))
     else []) ++
    render_entries recur fs parent prefix n (S i) rest
  end.

Fixpoint render (fs : node) (lower : string → string)
    (ch : gmap path (list string)) (fuel : nat) (parent : path) (prefix : string)
    : list (path * string) :=
  match fuel with
  | 0 => []
  | S fuel' =>
    let entries := sorted (child_lt fs lower parent) (default [] (ch !! parent)) in
    render_entries (render fs lower ch fuel') fs parent prefix (length entries) 0 entries
  end.

(** Two indexes that list the same entries in the same order once sorted *)
Definition sort_equiv (fs : node) (lower : string → string)
    (ch1 ch2 : gmap path (list string)) : Prop :=
  ∀ k, sorted (child_lt fs lower k) (default [] (ch1 !! k)) =
       sorted (child_lt fs lower k) (default [] (ch2 !! k)).

(** No list of the index names an entry twice *)
Definition index_nodup (ch : gmap path (list string)) : Prop :=
  ∀ k l, ch !! k = Some l → NoDup l.

(** [r] leads from [parent] through listed entries, every one but the last
    a directory *)
Fixpoint on_route (fs : node) (ch : gmap path (list string))
    (parent : path) (r : path) : Prop :=
  match r with
  | [] => False
  | c :: r' =>
    has_child ch parent c ∧
    (r' = [] ∨ (is_dir fs (parent ++ [c]) = true ∧ on_route fs ch (parent ++ [c]) r'))
  end.

(** The connector of the entry at index [j] of [n] *)
Definition connector_at (n j : nat) : string :=
  if bool_decide (j = n - 1) then connector_last else connector_more.

(** The text of a line: the prefix of the call, one guide for every level
    between the call and the entry, a connector and the name. *)
Definition line_ok (parent : path) (prefix : string) (ln : path * string) : Prop :=
  ∃ par name guides conn,
    ln.1 = par ++ [name] ∧
    ln.2 = prefix +:+ String.concat "" guides +:+ conn +:+ name ∧
    Forall (λ e, e = extension_last ∨ e = extension_more) guides ∧
    length par = (length parent + length guides)%nat ∧
    (conn = connector_last ∨ conn = connector_more).

(** [s] has a carriage return in it *)
Fixpoint has_cr (s : string) : bool :=
  match s with
  | "" => false
  | String c r => bool_decide (c = CR) || has_cr r
  end.

(** [s] has a slash in it *)
Fixpoint has_slash (s : string) : bool :=
  match s with
  | "" => false
  | String c r => bool_decide (c = "/"%char) || has_slash r
  end.

(** [s.split('/')] *)
Fixpoint split_slash (s : string) : list string :=
  match s with
  | "" => [""]
  | String c r =>
    if bool_decide (c = "/"%char) then "" :: split_slash r
    else match split_slash r with
         | h :: t => String c h :: t
         | [] => [String c ""]
         end
  end.

(** ** Fixtures *)

(** A lower-casing of the ASCII letters, to run [sort_children] with *)
Definition ascii_lower_char (c : ascii) : ascii :=
  if in_range 65 90 c then ascii_of_N (N_of_ascii c + 32) else c.

Fixpoint ascii_lower (s : string) : string :=
  match s with
  | "" => ""
  | String c r => String (ascii_lower_char c) (ascii_lower r)
  end.

(** Nothing leaves the writer's buffer before the document is closed, as
    with a document shorter than the buffer. *)
Definition nothing_flushed (w : string) : nat := 0.

(** The tree of the scenario: [a.txt], [node_modules/x.js], [sub/b.txt], and
    an export document left by an earlier run. *)
Definition scenario : node :=
  Dir [ ("a.txt", File (ReadOk "hi"));
        ("node_modules", Dir [ ("x.js", File (ReadOk "ignored")) ]);
        ("sub", Dir [ ("b.txt", File (ReadOk ("line1" +:+ nl))) ]);
        (output_name, File (ReadOk "OLD")) ].

Definition scenario_root : path := ["/"; "srv"; "proj"].

(** What the run on the scenario writes, and its globals before and after
    the tree is drawn *)
Definition scenario_sections : list (path * string) :=
  Eval vm_compute in
    default [] (run_sections scenario_root scenario ascii_lower nothing_flushed).

Definition scenario_globals : globals :=
  Globals (files scenario_root scenario)
    (default ∅ (build_children scenario_root (files scenario_root scenario) ∅)) [].


(** A file that cannot be read next to one that can *)
Definition unreadable : string → path → read_result :=
  λ _ p, if bool_decide (p = scenario_root ++ ["secret.txt"])
         then ReadErr "[Errno 13] Permission denied: 'secret.txt'"
         else ReadOk "hi".






(** A tree with a file that cannot be read *)
Definition scenario_secret : node :=
  Dir [ ("a.txt", File (ReadOk "hi"));
        ("secret.txt", File (ReadErr "[Errno 13] Permission denied: 'secret.txt'")) ].

(** * Facts about the model *)

(** ** Strings *)

Lemma append_cons c s t : String c s +:+ t = String c (s +:+ t).
Proof. reflexivity. Qed.

Lemma append_nil_l s : "" +:+ s = s.
Proof. reflexivity. Qed.

Lemma append_nil_r s : s +:+ "" = s.
Proof. induction s as [|c s IH]; [done|]. by rewrite append_cons, IH. Qed.

Lemma append_assoc s t u : (s +:+ t) +:+ u = s +:+ (t +:+ u).
Proof. induction s as [|c s IH]; [done|]. by rewrite !append_cons, IH. Qed.

(** ** Decoding and line breaks *)



Lemma has_nl_app s t : has_nl (s +:+ t) = has_nl s || has_nl t.
Proof.
  induction s as [|c s IH]; [done|].
  rewrite append_cons. simpl. by rewrite IH, orb_assoc.
Qed.

Lemma endswith_nl_app_nl s : endswith_nl (s +:+ nl) = true.
Proof.
  induction s as [|c s IH]; [done|].
  rewrite append_cons. simpl. rewrite IH.
  destruct (s +:+ nl) eqn:E; [|done]. by destruct s.
Qed.

Lemma endswith_nl_cons c s : s ≠ "" → endswith_nl (String c s) = endswith_nl s.
Proof. by destruct s. Qed.

Lemma endswith_nl_app s t : t ≠ "" → endswith_nl (s +:+ t) = endswith_nl t.
Proof.
  intros Ht. induction s as [|c s IH]; [done|].
  rewrite append_cons, endswith_nl_cons; [done|]. by destruct s.
Qed.

Lemma placeholder_no_nl msg : endswith_nl (placeholder msg) = false.
Proof.
  unfold placeholder. rewrite <- append_assoc. by rewrite endswith_nl_app.
Qed.

(** ** The order of paths *)


Lemma string_compare_opp x y : String.compare y x = CompOpp (String.compare x y).
Proof. apply String.compare_antisym. Qed.








(** ** The stable sort *)

Section Sorting.
Context {A : Type} (lt : A → A → bool).

Lemma insert_sorted_perm x l : insert_sorted lt x l ≡ₚ x :: l.
Proof.
  induction l as [|y l IH]; simpl; [done|].
  destruct (lt y x); [|done]. rewrite IH. apply Permutation_swap.
Qed.

Lemma sorted_perm l : sorted lt l ≡ₚ l.
Proof.
  induction l as [|x l IH]; simpl; [done|].
  by rewrite insert_sorted_perm, IH.
Qed.

Hypothesis lt_asym : ∀ x y, lt x y = true → lt y x = false.
Hypothesis le_trans : Transitive (le_of lt).

Lemma insert_sorted_sorted x l :
  StronglySorted (le_of lt) l → StronglySorted (le_of lt) (insert_sorted lt x l).
Proof.
  induction 1 as [|y l Hl IH Hy]; simpl.
  - repeat constructor.
  - destruct (lt y x) eqn:E.
    + constructor; [done|].
      rewrite insert_sorted_perm. constructor; [|done].
      by apply lt_asym.
    + constructor; [by constructor|].
      constructor; [done|].
      eapply Forall_impl; [exact Hy|]. intros z Hz. by transitivity y.
Qed.

Lemma sorted_sorted l : StronglySorted (le_of lt) (sorted lt l).
Proof.
  induction l as [|x l IH]; simpl; [constructor|].
  by apply insert_sorted_sorted.
Qed.

End Sorting.



(** ** The directory tree *)

Lemma node_ind' (P : node → Prop) :
  (∀ data, P (File data)) →
  (∀ es, Forall (λ e, P e.2) es → P (Dir es)) →
  ∀ d, P d.
Proof.
  intros HF HD. fix IH 1. intros [data|es]; [apply HF|].
  apply HD. induction es as [|e es IHes]; constructor; [apply IH|apply IHes].
Qed.

Lemma entry_Some name es x : entry name es = Some x → (name, x) ∈ es.
Proof.
  induction es as [|[n y] es IH]; simpl; [done|].
  case_bool_decide; intros Hx; simplify_eq.
  - left.
  - right. by apply IH.
Qed.

Lemma relative_to_app root rel : relative_to (root ++ rel) root = Some rel.
Proof.
  induction root as [|r root IH]; simpl; [done|].
  by rewrite bool_decide_true.
Qed.

Lemma relative_to_Some p root rel : relative_to p root = Some rel → p = root ++ rel.
Proof.
  revert p. induction root as [|r root IH]; intros p; simpl.
  - congruence.
  - destruct p as [|s p]; [done|]. case_bool_decide; [|done].
    intros Hr. apply IH in Hr. by subst.
Qed.

Lemma any_excluded_app p q : any_excluded (p ++ q) = any_excluded p || any_excluded q.
Proof. apply existsb_app. Qed.

Lemma any_excluded_false p :
  any_excluded p = false ↔ ∀ part, part ∈ p → part ∉ exclude_dirs.
Proof.
  unfold any_excluded. induction p as [|s p IH]; simpl.
  - split; [|done]. intros _ part H. by apply elem_of_nil in H.
  - rewrite orb_false_iff, IH, bool_decide_eq_false. split.
    + intros [H1 H2] part [->|H]%elem_of_cons; auto.
    + intros H. split; [apply H; left|]. intros part Hp. apply H. by right.
Qed.

Lemma files_files_from root fs : files root fs = files_from root fs.
Proof. reflexivity. Qed.

Lemma files_from_Dir top es :
  files_from top (Dir es) =
  flat_map (λ name, let p := top ++ [name] in if any_excluded p then [] else [p])
    (filenames_of es) ++
  flat_map (λ e, if node_is_dir e.2 && not_excluded e.1
                 then files_from (top ++ [e.1]) e.2 else []) es.
Proof.
  unfold files_from at 1. simpl. f_equal.
  induction es as [|e es IH]; simpl; [done|].
  rewrite flat_map_app, IH. f_equal.
  by destruct (node_is_dir e.2 && not_excluded e.1).
Qed.

Lemma elem_of_flat_map {A B} (f : A → list B) (l : list A) (y : B) :
  y ∈ flat_map f l ↔ ∃ x, x ∈ l ∧ y ∈ f x.
Proof.
  rewrite list_elem_of_In, in_flat_map. setoid_rewrite list_elem_of_In. done.
Qed.

(** Every collected path lies below [top] and has no excluded part. *)
Lemma files_from_sound d : ∀ top p,
  p ∈ files_from top d →
  ∃ rel, p = top ++ rel ∧ rel ≠ [] ∧ any_excluded p = false.
Proof.
  induction d as [data|es IH] using node_ind'; intros top p.
  - unfold files_from. simpl. by intros ?%elem_of_nil.
  - rewrite files_from_Dir, elem_of_app, !elem_of_flat_map.
    intros [(name & _ & Hp)|(e & He & Hp)].
    + simpl in Hp. destruct (any_excluded (top ++ [name])) eqn:E.
      { by apply elem_of_nil in Hp. }
      apply list_elem_of_singleton in Hp as ->. by exists [name].
    + destruct (node_is_dir e.2 && not_excluded e.1); [|by apply elem_of_nil in Hp].
      rewrite Forall_forall in IH.
      destruct (IH e He _ _ Hp) as (rel & -> & _ & Hx).
      exists (e.1 :: rel). rewrite <- app_assoc in *. done.
Qed.

Lemma filenames_of_elem name es data :
  (name, File data) ∈ es → name ∈ filenames_of es.
Proof.
  intros H. unfold filenames_of. apply list_elem_of_fmap.
  exists (name, File data). split; [done|]. by apply list_elem_of_filter.
Qed.

(** Every file of the tree that has no excluded part on its absolute path
    is collected. *)
Lemma files_from_complete rel : ∀ d top,
  rel ≠ [] → is_file d rel = true → any_excluded (top ++ rel) = false →
  top ++ rel ∈ files_from top d.
Proof.
  unfold is_file.
  induction rel as [|name rel IH]; intros d top Hne Hf Hx; [done|].
  simpl in Hf. destruct d as [data|es]; [done|].
  destruct (entry name es) as [x|] eqn:He; [|done].
  apply entry_Some in He.
  rewrite files_from_Dir, elem_of_app, !elem_of_flat_map.
  destruct rel as [|name' rel].
  - left. simpl in Hf. destruct x as [data|]; [|done].
    exists name. split; [by eapply filenames_of_elem|].
    simpl. rewrite Hx. by apply list_elem_of_singleton.
  - right. exists (name, x). split; [done|]. simpl.
    assert (node_is_dir x = true) as ->.
    { destruct x; [done|done]. }
    assert (not_excluded name = true) as ->.
    { apply bool_decide_eq_true.
      eapply any_excluded_false; [exact Hx|].
      apply elem_of_app. right. left. }
    simpl. replace (top ++ name :: name' :: rel) with ((top ++ [name]) ++ name' :: rel)
      by by rewrite <- app_assoc.
    apply IH; [done|done|]. by rewrite <- app_assoc.
Qed.

(** ** The index of children *)

Lemma register_parts_from_aux rest : ∀ pre ch,
  foldl (λ ch ic, register (take ic.1 (pre ++ rest)) ic.2 ch) ch
    (imap (λ i c, (length pre + i, c)) rest)
  = register_from pre rest ch.
Proof.
  induction rest as [|c rest IH]; intros pre ch; simpl; [done|].
  rewrite Nat.add_0_r, take_app_length.
  rewrite <- (IH (pre ++ [c])). rewrite <- app_assoc. simpl.
  f_equal. apply imap_ext. intros i x _. simpl.
  rewrite length_app. simpl. f_equal. lia.
Qed.

Lemma register_parts_from parts ch :
  register_parts parts ch = register_from [] parts ch.
Proof. exact (register_parts_from_aux parts [] ch). Qed.

Lemma register_has_child parent child ch par c :
  has_child (register parent child ch) par c ↔
  has_child ch par c ∨ (par = parent ∧ c = child).
Proof.
  unfold register, has_child.
  destruct (decide (par = parent)) as [->|Hne].
  - case_bool_decide as Hin.
    + rewrite lookup_insert_eq. split.
      * intros (l & [= <-] & Hc). destruct (ch !! parent) as [l|] eqn:E; simpl in *.
        -- left. eauto.
        -- by apply elem_of_nil in Hc.
      * intros [(l & Hl & Hc)|[_ ->]].
        -- rewrite Hl. simpl. eauto.
        -- eauto.
    + rewrite lookup_insert_eq. split.
      * intros (l & [= <-] & [Hc| ->%list_elem_of_singleton]%elem_of_app); [|by right].
        left. destruct (ch !! parent) as [l|] eqn:E; simpl in *; [eauto|].
        by apply elem_of_nil in Hc.
      * intros [(l & Hl & Hc)|[_ ->]]; eexists; (split; [done|]).
        -- rewrite Hl. simpl. apply elem_of_app. by left.
        -- apply elem_of_app. right. by apply list_elem_of_singleton.
  - assert (∀ l, <[parent:=l]> ch !! par = ch !! par) as Hl.
    { intros l. by apply lookup_insert_ne. }
    destruct (bool_decide _); rewrite Hl; (split; [by left|]);
      by intros [?|[? _]].
Qed.

Lemma register_from_has_child rest : ∀ pre ch par c,
  has_child (register_from pre rest ch) par c ↔
  has_child ch par c ∨ ∃ r1 r2, rest = r1 ++ c :: r2 ∧ par = pre ++ r1.
Proof.
  induction rest as [|x rest IH]; intros pre ch par c; simpl.
  - split; [by left|]. intros [?|(r1 & r2 & Hr & _)]; [done|].
    by destruct r1.
  - rewrite IH, register_has_child. split.
    + intros [[?|[-> ->]]|(r1 & r2 & -> & ->)].
      * by left.
      * right. exists [], rest. by rewrite app_nil_r.
      * right. exists (x :: r1), r2. by rewrite <- app_assoc.
    + intros [?|(r1 & r2 & Hr & ->)]; [by left; left|].
      destruct r1 as [|y r1]; simpl in Hr; simplify_eq.
      * left. right. by rewrite app_nil_r.
      * right. exists r1, r2. by rewrite <- app_assoc.
Qed.

Section Children.
Variable root : path.

Lemma build_children_total ps : ∀ ch,
  Forall (λ p, is_Some (relative_to p root)) ps →
  is_Some (build_children root ps ch).
Proof.
  induction ps as [|p ps IH]; intros ch Hps; simpl; [by eexists|].
  inversion_clear Hps as [|?? [rel Hrel] Hps']. rewrite Hrel. simpl.
  by apply IH.
Qed.

(** What the index lists when every path is registered: what it listed
    before, and every part of every path under the parts before it. *)
Lemma build_children_has_child ps : ∀ ch ch' par c,
  build_children root ps ch = Some ch' →
  has_child ch' par c ↔
  has_child ch par c ∨
  ∃ p rest, p ∈ ps ∧ relative_to p root = Some (par ++ c :: rest).
Proof.
  induction ps as [|p ps IH]; intros ch ch' par c; simpl.
  - intros [= <-]. split; [by left|]. intros [?|(p & rest & Hp & _)]; [done|].
    by apply elem_of_nil in Hp.
  - destruct (relative_to p root) as [rel|] eqn:Hrel; simpl; [|done].
    intros Hb. rewrite (IH _ _ _ _ Hb), register_parts_from, register_from_has_child.
    split.
    + intros [[?|(r1 & r2 & -> & ->)]|(q & rest & Hq & Hr)].
      * by left.
      * right. exists p, r2. split; [left|done].
      * right. exists q, rest. split; [by right|done].
    + intros [?|(q & rest & [->|Hq]%elem_of_cons & Hr)].
      * by left; left.
      * left. right. rewrite Hrel in Hr. simplify_eq. by exists par, rest.
      * right. eauto.
Qed.
End Children.

Lemma has_child_empty par c : ¬ has_child ∅ par c.
Proof. intros (l & Hl & _). by rewrite lookup_empty in Hl. Qed.

(** ** The order of [sort_children] *)

Lemma ltb_leb s1 s2 : String.ltb s1 s2 = negb (String.leb s2 s1).
Proof.
  unfold String.ltb, String.leb. rewrite (string_compare_opp s1 s2).
  by destruct (String.compare s1 s2).
Qed.

Lemma key_le_alt k1 k2 :
  key_le k1 k2 ↔
  (k2.1 = false → k1.1 = false) ∧ (k1.1 = k2.1 → String.leb k1.2 k2.2 = true).
Proof.
  unfold key_le, key_lt. rewrite ltb_leb.
  destruct k1 as [[] s1], k2 as [[] s2]; simpl;
    destruct (String.leb s1 s2); simpl; intuition congruence.
Qed.

Lemma key_lt_asym k1 k2 : key_lt k1 k2 = true → key_lt k2 k1 = false.
Proof.
  unfold key_lt. rewrite !ltb_leb.
  destruct k1 as [[] s1], k2 as [[] s2]; simpl; try done.
  all: destruct (String.le_total s1 s2) as [H|H]; unfold String.le in H;
    apply Is_true_true in H; rewrite H; simpl; try done.
  all: by intros ->%negb_true_iff.
Qed.

Lemma key_le_trans : Transitive key_le.
Proof.
  intros k1 k2 k3. rewrite !key_le_alt. intros [A1 B1] [A2 B2]. split.
  - auto.
  - intros E.
    destruct k1 as [b1 s1], k2 as [b2 s2], k3 as [b3 s3]; simpl in *. subst b3.
    assert (b2 = b1) as ->.
    { destruct b1, b2; try done; [by rewrite A1 in *|by rewrite A2 in *]. }
    apply Is_true_true. 
    etransitivity; [apply Is_true_true, B1|apply Is_true_true, B2]; done.
Qed.

(** ** The tree *)

Lemma is_dir_height p : ∀ d es, resolve d p = Some (Dir es) → (length p < height d)%nat.
Proof.
  induction p as [|name p IH]; intros d es; simpl.
  - intros [= ->]. simpl. lia.
  - destruct d as [|es']; [done|].
    destruct (entry name es') as [x|] eqn:He; [|done].
    intros Hr. apply IH in Hr. apply entry_Some in He.
    assert (height x ≤ max_list (map (λ e, height e.2) es'))%nat.
    { apply max_list_elem_of_le. apply list_elem_of_fmap. by exists (name, x). }
    simpl. lia.
Qed.

Lemma StronglySorted_mono {A} (R1 R2 : relation A) l :
  (∀ x y, R1 x y → R2 x y) → StronglySorted R1 l → StronglySorted R2 l.
Proof.
  intros HR. induction 1 as [|x l Hl IH Hx]; constructor; [done|].
  eapply Forall_impl; [exact Hx|]. auto.
Qed.

Section Tree.
Variable fs : node.
Variable lower : string → string.

Lemma child_le_of parent x y :
  le_of (child_lt fs lower parent) x y ↔ child_le fs lower parent x y.
Proof.
  unfold le_of, child_lt, child_le. fold (key_le (sort_key lower fs parent x)
    (sort_key lower fs parent y)). rewrite key_le_alt. simpl.
  rewrite !negb_false_iff.
  destruct (is_dir fs (parent ++ [x])), (is_dir fs (parent ++ [y])); simpl;
    intuition congruence.
Qed.

Lemma sorted_children_sorted parent l :
  StronglySorted (child_le fs lower parent) (sorted (child_lt fs lower parent) l).
Proof.
  eapply (StronglySorted_mono (le_of (child_lt fs lower parent))).
  - intros x y. apply child_le_of.
  - apply sorted_sorted.
    + intros x y. apply key_lt_asym.
    + intros x y z. unfold le_of, child_lt. apply key_le_trans.
Qed.

Lemma sort_children_spec parent g :
  let '(entries, g') := sort_children fs lower parent g in
  g_files g' = g_files g ∧ g_lines g' = g_lines g ∧
  entries ≡ₚ default [] (g_children g !! parent) ∧
  StronglySorted (child_le fs lower parent) entries ∧
  (∀ par c, has_child (g_children g') par c ↔ has_child (g_children g) par c).
Proof.
  unfold sort_children. destruct (g_children g !! parent) as [l|] eqn:E; simpl.
  - fold (child_lt fs lower parent). split_and!; try done.
    + apply sorted_perm.
    + apply sorted_children_sorted.
    + intros par c. unfold has_child. destruct (decide (par = parent)) as [->|Hne].
      * rewrite lookup_insert_eq, E. split; intros (l' & [= <-] & Hc); eexists; (split; [done|]).
        -- by rewrite sorted_perm in Hc.
        -- by rewrite sorted_perm.
      * by rewrite lookup_insert_ne.
  - split_and!; try done. constructor.
Qed.

Lemma filter_none {A} (P : A → Prop) `{∀ x, Decision (P x)} (l : list A) :
  Forall (λ x, ¬ P x) l → filter P l = [].
Proof.
  induction 1 as [|x l Hx Hl IH]; [done|].
  by rewrite filter_cons_False.
Qed.

Lemma add_entries_spec recur parent prefix n :
  (∀ cp pre g1 g2, recur cp pre g1 = Some g2 → ∃ es, tree_spec cp es g1 g2) →
  ∀ entries i g g',
  Forall (has_child (g_children g) parent) entries →
  add_entries fs recur parent prefix n i entries g = Some g' →
  tree_spec parent entries g g'.
Proof.
  intros Hrec. induction entries as [|name rest IH]; intros i g g' Hes; simpl.
  - intros [= <-]. split; [done|done|]. exists []. by rewrite app_nil_r.
  - set (cp := parent ++ [name]).
    set (text := prefix +:+ _ +:+ name).
    set (g1 := append_line cp text g).
    inversion_clear Hes as [|?? Hname Hrest].
    destruct (is_dir fs cp) eqn:Hd.
    + destruct (recur cp _ g1) as [g2|] eqn:Hr; simpl; [|done].
      intros Ha. destruct (Hrec _ _ _ _ Hr) as [es [F2 C2 (new2 & L2 & S2 & D2)]].
      assert (Forall (has_child (g_children g2) parent) rest) as Hrest2.
      { eapply Forall_impl; [exact Hrest|]. intros c Hc. by apply C2. }
      destruct (IH _ _ _ Hrest2 Ha) as [F3 C3 (new3 & L3 & S3 & D3)].
      split.
      * by rewrite F3, F2.
      * intros par c. by rewrite C3, C2.
      * exists ((cp, text) :: new2 ++ new3). split_and!.
        -- rewrite L3, L2. simpl. by rewrite <- !app_assoc.
        -- constructor; [|apply Forall_app; split].
           ++ exists parent, name. by split_and!.
           ++ eapply Forall_impl; [exact S2|].
              intros ln (par & c & E1 & E2 & E3). exists par, c. split_and!; try done.
              etransitivity; [|exact E3]. by apply prefix_app_r.
           ++ eapply Forall_impl; [exact S3|].
              intros ln (par & c & E1 & E2 & E3). exists par, c. split_and!; try done.
              by apply C2.
        -- rewrite filter_cons_True, filter_app.
           2:{ unfold direct, cp. simpl. rewrite length_app. simpl. lia. }
           rewrite (filter_none _ new2), app_nil_l; [by rewrite fmap_cons, D3|].
           eapply Forall_impl; [exact S2|].
           intros ln (par & c & E1 & _ & E3). unfold direct. rewrite E1.
           apply prefix_length in E3. unfold cp in E3.
           rewrite !length_app in *. simpl in *. lia.
    + simpl. intros Ha.
      destruct (IH _ g1 _ Hrest Ha) as [F3 C3 (new3 & L3 & S3 & D3)].
      split; [done|done|].
      exists ((cp, text) :: new3). split_and!.
      * rewrite L3. simpl. by rewrite <- !app_assoc.
      * constructor; [|done]. exists parent, name. by split_and!.
      * rewrite filter_cons_True; [by rewrite !fmap_cons, D3|].
        unfold direct, cp. simpl. rewrite length_app. simpl. lia.
Qed.

Lemma add_tree_spec fuel : ∀ parent prefix g g',
  add_tree fs lower fuel parent prefix g = Some g' →
  tree_spec parent (sort_children fs lower parent g).1 g g'.
Proof.
  induction fuel as [|fuel IH]; intros parent prefix g g'; simpl; [done|].
  pose proof (sort_children_spec parent g) as Hs.
  destruct (sort_children fs lower parent g) as [entries g1].
  destruct Hs as (F1 & L1 & P1 & _ & C1). simpl. intros Ha.
  apply add_entries_spec in Ha.
  - destruct Ha as [F2 C2 (new & L2 & S2 & D2)]. split.
    + by rewrite F2.
    + intros par c. by rewrite C2.
    + exists new. split_and!; [by rewrite L2, L1| |done].
      eapply Forall_impl; [exact S2|].
      intros ln (par & c & E1 & E2 & E3). exists par, c. split_and!; try done.
      by apply C1.
  - intros cp pre g2 g3 Hr. eexists. by eapply IH.
  - apply Forall_forall. intros c Hc. apply C1.
    rewrite P1 in Hc. destruct (g_children g !! parent) as [l|] eqn:E; simpl in Hc.
    + by exists l.
    + by apply elem_of_nil in Hc.
Qed.

(** The recursion is no deeper than the tree: with enough fuel the
    drawing ends. *)
Lemma add_entries_total recur parent prefix n :
  (∀ pre g, ∀ name, is_dir fs (parent ++ [name]) = true →
     is_Some (recur (parent ++ [name]) pre g)) →
  ∀ entries i g, is_Some (add_entries fs recur parent prefix n i entries g).
Proof.
  intros Hrec. induction entries as [|name rest IH]; intros i g; simpl; [by eexists|].
  destruct (is_dir fs (parent ++ [name])) eqn:Hd.
  - edestruct (Hrec) as [g2 ->]; [exact Hd|]. simpl. apply IH.
  - simpl. apply IH.
Qed.

Lemma add_tree_total fuel : ∀ parent prefix g,
  (0 < fuel)%nat → (height fs ≤ fuel + length parent)%nat →
  is_Some (add_tree fs lower fuel parent prefix g).
Proof.
  induction fuel as [|fuel IH]; intros parent prefix g H0 Hh; [lia|]. simpl.
  destruct (sort_children fs lower parent g) as [entries g1].
  apply add_entries_total. intros pre g2 name Hd.
  unfold is_dir in Hd. destruct (resolve fs (parent ++ [name])) as [[|es]|] eqn:E; try done.
  apply is_dir_height in E. rewrite length_app in E. simpl in E.
  apply IH; [lia|]. rewrite length_app. simpl. lia.
Qed.
End Tree.

(** ** The dump loop *)

Section DumpFacts.
Variable root : path.
Variable read : string → path → read_result.

(** One pass of the loop adds the section of its file to the document. *)
Lemma dump_file_section p w :
  dump_file root read p w = (λ s, w +:+ s) <$> file_section root read w p.
Proof.
  unfold dump_file, file_section, write.
  destruct (relative_to p root) as [rel|]; simpl; [|done].
  fold (delimiter rel).
  destruct (endswith_nl (content_of read (w +:+ delimiter rel) p));
    by rewrite ?append_nil_l, !append_assoc.
Qed.

(** The loop writes the sections of its files one after the other. *)
Lemma dump_files_sections ps : ∀ w,
  dump_files root read ps w =
  (λ secs, w +:+ String.concat "" secs.*2) <$> file_sections root read ps w.
Proof.
  induction ps as [|p ps IH]; intros w; simpl.
  - by rewrite append_nil_r.
  - rewrite dump_file_section.
    destruct (file_section root read w p) as [s|]; simpl; [|done].
    rewrite IH. destruct (file_sections root read ps (w +:+ s)) as [secs|]; simpl; [|done].
    f_equal. rewrite append_assoc. f_equal.
    destruct secs as [|[q t] secs]; simpl; [by rewrite append_nil_r|done].
Qed.

Lemma file_sections_paths ps : ∀ w secs,
  file_sections root read ps w = Some secs → secs.*1 = ps.
Proof.
  induction ps as [|p ps IH]; intros w secs; simpl.
  - by intros [= <-].
  - destruct (file_section root read w p) as [s|]; simpl; [|done].
    destruct (file_sections root read ps (w +:+ s)) as [rest|] eqn:E; simpl; [|done].
    intros [= <-]. simpl. f_equal. by eapply IH.
Qed.

(** The loop gets through every list of paths below [root], whatever the
    reads give. *)
Lemma file_sections_total ps : ∀ w,
  Forall (λ p, is_Some (relative_to p root)) ps →
  is_Some (file_sections root read ps w).
Proof.
  induction ps as [|p ps IH]; intros w Hps; simpl; [by eexists|].
  inversion_clear Hps as [|?? [rel Hrel] Hps']. unfold file_section.
  rewrite Hrel. simpl. edestruct IH as [rest ->]; [done|]. by eexists.
Qed.

(** Every section is the text of one pass, started on a document that
    holds what was written before. *)
Lemma file_sections_elem ps : ∀ w secs p s,
  file_sections root read ps w = Some secs → (p, s) ∈ secs →
  ∃ before, file_section root read (w +:+ before) p = Some s.
Proof.
  induction ps as [|q ps IH]; intros w secs p s; simpl.
  - intros [= <-] Hin. by apply elem_of_nil in Hin.
  - destruct (file_section root read w q) as [t|] eqn:Hq; simpl; [|done].
    destruct (file_sections root read ps (w +:+ t)) as [rest|] eqn:E; simpl; [|done].
    intros [= <-] [[= -> ->]|Hin]%elem_of_cons.
    + exists "". by rewrite append_nil_r.
    + destruct (IH _ _ _ _ E Hin) as [before Hb].
      exists (t +:+ before). by rewrite <- append_assoc.
Qed.

(** When no read of the listed files depends on what the document holds,
    the sections do not either. *)
Lemma file_sections_state_free ps : ∀ w1 w2,
  (∀ p w w', p ∈ ps → read w p = read w' p) →
  file_sections root read ps w1 = file_sections root read ps w2.
Proof.
  induction ps as [|p ps IH]; intros w1 w2 Hread; simpl; [done|].
  assert (file_section root read w1 p = file_section root read w2 p) as ->.
  { unfold file_section. destruct (relative_to p root) as [rel|]; simpl; [|done].
    unfold content_of, read_text_safely.
    by rewrite (Hread p (w1 +:+ delimiter rel) (w2 +:+ delimiter rel)) by left. }
  destruct (file_section root read w2 p) as [s|]; simpl; [|done].
  rewrite (IH (w1 +:+ s) (w2 +:+ s)); [done|].
  intros q w w' Hq. apply Hread. by right.
Qed.

Lemma write_document_sections g :
  write_document root read g =
  (λ secs, preamble g +:+ String.concat "" secs.*2) <$>
    file_sections root read (sorted path_lt (g_files g)) (preamble g).
Proof.
  unfold write_document, write. rewrite dump_files_sections.
  assert (((((("" +:+ "REPO TREE" +:+ nl) +:+ "========" +:+ nl) +:+
     String.concat nl (g_lines g).*2) +:+ nl +:+ nl) +:+
     "FILE CONTENTS (latest)" +:+ nl) +:+ "======================" +:+ nl +:+ nl
     = preamble g) as ->; [|done].
  unfold preamble. by rewrite append_nil_l, !append_assoc.
Qed.
End DumpFacts.

(** ** The whole run *)

Section RunFacts.
Variable root : path.
Variable fs : node.
Variable lower : string → string.
Variable flushed : string → nat.

Lemma files_under_root p :
  p ∈ files root fs → ∃ rel, p = root ++ rel ∧ rel ≠ [] ∧ any_excluded p = false.
Proof. apply files_from_sound. Qed.

Lemma files_relative :
  Forall (λ p, is_Some (relative_to p root)) (files root fs).
Proof.
  apply Forall_forall. intros p (rel & -> & _)%files_under_root.
  rewrite relative_to_app. by eexists.
Qed.

(** The tree is always drawn. *)
Lemma draw_tree_total : is_Some (draw_tree root fs lower).
Proof.
  unfold draw_tree.
  destruct (build_children_total root (files root fs) ∅ files_relative) as [ch ->].
  apply (add_tree_total fs lower (S (height fs)) [] ""); simpl; lia.
Qed.

(** The globals once the tree is drawn *)
Lemma draw_tree_spec g :
  draw_tree root fs lower = Some g →
  g_files g = files root fs ∧
  (∀ par c, has_child (g_children g) par c ↔
     ∃ p rest, p ∈ files root fs ∧ relative_to p root = Some (par ++ c :: rest)) ∧
  ∃ ch new,
    build_children root (files root fs) ∅ = Some ch ∧
    g_lines g = ([], path_str root) :: new ∧
    Forall (shown_ok (g_children g) []) new ∧
    (filter (direct []) new).*1 =
      (λ c, [c]) <$> sorted (child_lt fs lower []) (default [] (ch !! [])).
Proof.
  unfold draw_tree.
  destruct (build_children root (files root fs) ∅) as [ch|] eqn:Hb; [|done].
  intros Ha.
  destruct (add_tree_spec fs lower (S (height fs)) [] "" _ g Ha)
    as [F C (new & L & S & D)].
  cbn [g_files g_children g_lines append_line app] in F, C, L, S.
  assert (∀ par c, has_child (g_children g) par c ↔
     ∃ p rest, p ∈ files root fs ∧ relative_to p root = Some (par ++ c :: rest)) as HC.
  { intros par c. rewrite C, (build_children_has_child _ _ _ _ _ _ Hb).
    split; [|by right]. intros [[]%has_child_empty|?]. done. }
  split_and!; [done|done|].
  exists ch, new. split_and!; [done|done| |].
  - eapply Forall_impl; [exact S|].
    intros ln (par & c & E1 & E2 & E3). exists par, c. split_and!; try done.
    by apply C.
  - rewrite D. unfold sort_children. simpl.
    destruct (ch !! []) as [l|]; done.
Qed.

Lemma run_run_sections :
  run root fs lower flushed =
  g ← draw_tree root fs lower;
  (λ secs, preamble g +:+ String.concat "" secs.*2) <$>
    (if is_dir fs [output_name] then None
     else file_sections root (disk_read root fs flushed)
            (sorted path_lt (g_files g)) (preamble g)).
Proof.
  unfold run. destruct (draw_tree root fs lower) as [g|]; simpl; [|done].
  destruct (is_dir fs [output_name]); [done|]. apply write_document_sections.
Qed.

(** The run ends with a document unless a directory has the document's
    name. *)
Lemma run_sections_total :
  is_dir fs [output_name] = false →
  ∃ g secs, draw_tree root fs lower = Some g ∧
    run_sections root fs lower flushed = Some secs ∧
    secs.*1 = sorted path_lt (files root fs) ∧
    run root fs lower flushed = Some (preamble g +:+ String.concat "" secs.*2).
Proof.
  intros Hd. destruct draw_tree_total as [g Hg].
  destruct (draw_tree_spec g Hg) as (F & _).
  destruct (file_sections_total root (disk_read root fs flushed)
    (sorted path_lt (g_files g)) (preamble g)) as [secs Hs].
  { rewrite F. eapply Forall_forall. intros p Hp. rewrite sorted_perm in Hp.
    revert p Hp. apply Forall_forall, files_relative. }
  exists g, secs. rewrite run_run_sections. unfold run_sections.
  rewrite Hg, Hd. simpl. rewrite Hs. split_and!; try done.
  rewrite <- F. by eapply file_sections_paths.
Qed.
End RunFacts.

(** ** The earlier export *)

Section Old.
Variable old : read_result.

Lemma with_old_entry_fst e : (with_old_entry old e).1 = e.1.
Proof. unfold with_old_entry. destruct e as [n [d|es]]; simpl; [|done]. by case_bool_decide. Qed.

Lemma with_old_entry_is_dir e : node_is_dir (with_old_entry old e).2 = node_is_dir e.2.
Proof. unfold with_old_entry. destruct e as [n [d|es]]; simpl; [|done]. by case_bool_decide. Qed.

Lemma with_old_entry_Dir e : node_is_dir e.2 = true → with_old_entry old e = e.
Proof. unfold with_old_entry. by destruct e as [n [d|es]]. Qed.

Lemma with_old_entry_other e : e.1 ≠ output_name → with_old_entry old e = e.
Proof.
  unfold with_old_entry. destruct e as [n [d|es]]; simpl; [|done].
  intros Hn. by rewrite bool_decide_false.
Qed.

Lemma with_old_names (b : bool) es :
  (filter (λ e, node_is_dir e.2 = b) (with_old_entry old <$> es)).*1 =
  (filter (λ e, node_is_dir e.2 = b) es).*1.
Proof.
  induction es as [|e es IH]; [done|]. rewrite fmap_cons, !filter_cons.
  rewrite with_old_entry_is_dir.
  destruct (decide (node_is_dir e.2 = b)); [|exact IH].
  rewrite !fmap_cons, with_old_entry_fst. f_equal. exact IH.
Qed.

Lemma with_old_os_walk keep top fs :
  os_walk keep top (with_old old fs) = os_walk keep top fs.
Proof.
  destruct fs as [d|es]; [done|]. simpl.
  unfold dirnames_of, filenames_of. rewrite !with_old_names. f_equal.
  induction es as [|e es IH]; [done|]. rewrite fmap_cons. simpl. rewrite IH. f_equal.
  rewrite with_old_entry_is_dir, with_old_entry_fst.
  destruct (node_is_dir e.2) eqn:E; [|done].
  by rewrite with_old_entry_Dir.
Qed.

Lemma with_old_files root fs : files root (with_old old fs) = files root fs.
Proof. unfold files. by rewrite with_old_os_walk. Qed.

Lemma with_old_height fs : height (with_old old fs) = height fs.
Proof.
  destruct fs as [d|es]; [done|]. simpl. f_equal. f_equal.
  induction es as [|e es IH]; [done|]. rewrite fmap_cons. simpl. rewrite IH. f_equal.
  unfold with_old_entry. destruct e as [n [d|es']]; simpl; [|done]. by case_bool_decide.
Qed.

Lemma with_old_entry_lookup name es :
  entry name (with_old_entry old <$> es) =
  (λ x, (with_old_entry old (name, x)).2) <$> entry name es.
Proof.
  induction es as [|[n x] es IH]; [done|]. rewrite fmap_cons. simpl.
  pose proof (with_old_entry_fst (n, x)) as Hn. simpl in Hn.
  destruct (with_old_entry old (n, x)) as [n' x'] eqn:E. simpl in Hn. subst n'.
  case_bool_decide; [|done]. subst. simpl. by rewrite E.
Qed.

(** Below the root the two trees differ at the document and nowhere
    else. *)
Lemma with_old_resolve fs rel :
  rel ≠ [] → rel ≠ [output_name] →
  resolve (with_old old fs) rel = resolve fs rel.
Proof.
  intros Hne Hout. destruct rel as [|name rel]; [done|].
  destruct fs as [d|es]; [done|]. simpl. rewrite with_old_entry_lookup.
  destruct (entry name es) as [x|]; [|done]. simpl.
  unfold with_old_entry. simpl. destruct x as [d|es']; [|done].
  case_bool_decide; [|done]. subst. simpl.
  destruct rel; [done|done].
Qed.

Lemma with_old_is_dir fs rel : is_dir (with_old old fs) rel = is_dir fs rel.
Proof.
  unfold is_dir. destruct rel as [|name rel].
  - by destruct fs.
  - destruct fs as [d|es]; [done|]. simpl. rewrite with_old_entry_lookup.
    destruct (entry name es) as [x|]; [|done]. simpl.
    unfold with_old_entry. simpl. destruct x as [d|es']; [|done].
    case_bool_decide; [|done]. simpl. by destruct rel.
Qed.

Lemma with_old_sort_children fs lower parent g :
  sort_children (with_old old fs) lower parent g = sort_children fs lower parent g.
Proof.
  unfold sort_children. destruct (g_children g !! parent) as [l|]; [|done].
  assert (∀ x, sort_key lower (with_old old fs) parent x = sort_key lower fs parent x) as Hk.
  { intros x. unfold sort_key. by rewrite with_old_is_dir. }
  assert (∀ l', sorted (λ x y, key_lt (sort_key lower (with_old old fs) parent x)
                            (sort_key lower (with_old old fs) parent y)) l' =
                sorted (λ x y, key_lt (sort_key lower fs parent x)
                            (sort_key lower fs parent y)) l') as Hs.
  { induction l' as [|x l' IH]; [done|]. simpl. rewrite IH.
    generalize (sorted (λ x y, key_lt (sort_key lower fs parent x)
                                 (sort_key lower fs parent y)) l').
    intros l2. induction l2 as [|y l2 IH2]; [done|]. simpl. by rewrite !Hk, IH2. }
  by rewrite Hs.
Qed.

Lemma with_old_add_entries fs recur1 recur2 parent prefix n :
  (∀ cp pre g, recur1 cp pre g = recur2 cp pre g) →
  ∀ entries i g,
  add_entries (with_old old fs) recur1 parent prefix n i entries g =
  add_entries fs recur2 parent prefix n i entries g.
Proof.
  intros Hrec. induction entries as [|name rest IH]; intros i g; [done|]. simpl.
  rewrite with_old_is_dir. destruct (is_dir fs (parent ++ [name])).
  - rewrite Hrec. destruct (recur2 _ _ _) as [g2|]; simpl; [apply IH|done].
  - simpl. apply IH.
Qed.

Lemma with_old_add_tree fs lower fuel : ∀ parent prefix g,
  add_tree (with_old old fs) lower fuel parent prefix g =
  add_tree fs lower fuel parent prefix g.
Proof.
  induction fuel as [|fuel IH]; intros parent prefix g; [done|]. simpl.
  rewrite with_old_sort_children.
  destruct (sort_children fs lower parent g) as [entries g1].
  by apply with_old_add_entries.
Qed.

Lemma with_old_draw_tree root fs lower :
  draw_tree root (with_old old fs) lower = draw_tree root fs lower.
Proof.
  unfold draw_tree. rewrite with_old_files, with_old_height.
  destruct (build_children root (files root fs) ∅) as [ch|]; [|done].
  apply with_old_add_tree.
Qed.
End Old.

Lemma file_sections_ext root read1 read2 ps :
  (∀ p w, p ∈ ps → read1 w p = read2 w p) →
  ∀ w, file_sections root read1 ps w = file_sections root read2 ps w.
Proof.
  induction ps as [|p ps IH]; intros Hread w; simpl; [done|].
  assert (file_section root read1 w p = file_section root read2 w p) as ->.
  { unfold file_section. destruct (relative_to p root) as [rel|]; simpl; [|done].
    unfold content_of, read_text_safely. by rewrite Hread by left. }
  destruct (file_section root read2 w p) as [s|]; simpl; [|done].
  rewrite IH; [done|]. intros q w' Hq. apply Hread. by right.
Qed.

Section OldRun.
Variable old : read_result.
Variable root : path.
Variable fs : node.


Lemma with_old_disk_read flushed w p :
  p ∈ files root fs →
  disk_read root (with_old old fs) flushed w p = disk_read root fs flushed w p.
Proof.
  intros (rel & -> & Hne & _)%files_under_root. unfold disk_read.
  case_bool_decide as Hout; [done|].
  rewrite relative_to_app. simpl. rewrite with_old_resolve; [done|done|].
  intros ->. by apply Hout.
Qed.

(** What the earlier export held has no part in the run. *)
Lemma with_old_run_sections lower flushed :
  run_sections root (with_old old fs) lower flushed = run_sections root fs lower flushed.
Proof.
  unfold run_sections. rewrite with_old_draw_tree, with_old_is_dir.
  destruct (draw_tree root fs lower) as [g|] eqn:Hg; [|done]. simpl.
  destruct (is_dir fs [output_name]); [done|].
  apply file_sections_ext. intros p w Hp. apply with_old_disk_read.
  apply draw_tree_spec in Hg as (F & _).
  by rewrite F, sorted_perm in Hp.
Qed.

End OldRun.

(** ** Trees with unique names *)

Lemma wf_node_Dir es :
  wf_node (Dir es) = true → NoDup es.*1 ∧ Forall (λ e, wf_node e.2 = true) es.
Proof.
  simpl. intros [H1 H2]%andb_true_iff. split.
  - by apply bool_decide_eq_true in H1.
  - apply Forall_forall. intros e He.
    rewrite forallb_forall in H2. apply H2. by apply list_elem_of_In.
Qed.

Lemma entry_NoDup name x es : NoDup es.*1 → (name, x) ∈ es → entry name es = Some x.
Proof.
  induction es as [|[n y] es IH]; simpl; intros Hnd Hin.
  - by apply elem_of_nil in Hin.
  - apply NoDup_cons in Hnd as [Hn Hnd].
    apply elem_of_cons in Hin as [[= -> ->]|Hin].
    + by rewrite bool_decide_true.
    + rewrite bool_decide_false; [by apply IH|].
      intros ->. apply Hn. apply list_elem_of_fmap. by exists (name, x).
Qed.



Lemma filenames_of_entry name es :
  name ∈ filenames_of es → ∃ data, (name, File data) ∈ es.
Proof.
  unfold filenames_of. intros ([n x] & -> & [Hx Hin]%list_elem_of_filter)%list_elem_of_fmap.
  simpl in *. destruct x as [data|]; [|done]. by exists data.
Qed.


(** In a tree with unique names, what is collected is a file of the tree. *)
Lemma files_from_file d : ∀ top p,
  wf_node d = true → p ∈ files_from top d →
  ∃ rel, p = top ++ rel ∧ rel ≠ [] ∧ is_file d rel = true.
Proof.
  induction d as [data|es IH] using node_ind'; intros top p Hwf.
  - unfold files_from. simpl. by intros ?%elem_of_nil.
  - apply wf_node_Dir in Hwf as [Hnd Hwf].
    rewrite files_from_Dir, elem_of_app, !elem_of_flat_map.
    intros [(name & Hname & Hp)|(e & He & Hp)].
    + simpl in Hp. destruct (any_excluded (top ++ [name])); [by apply elem_of_nil in Hp|].
      apply list_elem_of_singleton in Hp as ->.
      apply filenames_of_entry in Hname as [data Hin].
      exists [name]. split_and!; [done|done|].
      unfold is_file. simpl. by rewrite (entry_NoDup _ _ _ Hnd Hin).
    + destruct (node_is_dir e.2 && not_excluded e.1); [|by apply elem_of_nil in Hp].
      rewrite Forall_forall in IH, Hwf.
      destruct (IH e He _ _ (Hwf e He) Hp) as (rel & -> & Hne & Hf).
      destruct e as [n x]. simpl in *.
      exists (n :: rel). rewrite <- app_assoc. split_and!; [done|done|].
      unfold is_file in *. simpl.
      by rewrite (entry_NoDup _ _ _ Hnd He).
Qed.



(** ** The sections of a run *)


Lemma as_posix_concat rel : rel ≠ [] → as_posix rel = String.concat "/" rel.
Proof. by destruct rel. Qed.

Lemma run_sections_elem root fs lower flushed secs p s :
  run_sections root fs lower flushed = Some secs → (p, s) ∈ secs →
  ∃ g rel before,
    draw_tree root fs lower = Some g ∧
    p ∈ files root fs ∧ p = root ++ rel ∧ rel ≠ [] ∧ any_excluded p = false ∧
    file_section root (disk_read root fs flushed) (preamble g +:+ before) p = Some s.
Proof.
  unfold run_sections. intros Hs Hin.
  destruct (draw_tree root fs lower) as [g|] eqn:Hg; [|done]. simpl in Hs.
  destruct (is_dir fs [output_name]); [done|].
  destruct (draw_tree_spec _ _ _ _ Hg) as (F & _).
  assert (p ∈ files root fs) as Hp.
  { rewrite <- F, <- (sorted_perm path_lt), <- (file_sections_paths _ _ _ _ _ Hs).
    apply list_elem_of_fmap. by exists (p, s). }
  destruct (files_under_root _ _ _ Hp) as (rel & -> & Hne & Hx).
  destruct (file_sections_elem _ _ _ _ _ _ _ Hs Hin) as [before Hb].
  by exists g, rel, before.
Qed.

(** The shape of a section of the document *)
Lemma section_format
    (root : path) (fs : node) (lower : string → string) (flushed : string → nat)
    (secs : list (path * string)) (p : path) (s : string) :
  run_sections root fs lower flushed = Some secs → (p, s) ∈ secs →
  ∃ rel w content,
    p = root ++ rel ∧ rel ≠ [] ∧
    content = content_of (disk_read root fs flushed) w p ∧
    s = "--- FILE: " +:+ String.concat "/" rel +:+ " ---" +:+ nl +:+
        content +:+ (if endswith_nl content then "" else nl) +:+ nl ∧
    (∀ b, p ≠ output root → resolve fs rel = Some (File (ReadOk b)) →
          utf8_decode b = Some b → content = universal_newlines b).
Proof.
  intros Hs Hin.
  destruct (run_sections_elem _ _ _ _ _ _ _ Hs Hin)
    as (g & rel & before & _ & _ & -> & Hne & _ & Hsec).
  unfold file_section in Hsec. rewrite relative_to_app in Hsec. simpl in Hsec.
  eexists rel, _, _. split_and!; [done|done|reflexivity| |].
  - injection Hsec as <-. unfold delimiter. rewrite (as_posix_concat rel Hne).
    by rewrite !append_assoc.
  - intros b Hout Hres Hdec. unfold content_of, read_text_safely, disk_read.
    rewrite bool_decide_false by done. rewrite relative_to_app. simpl.
    by rewrite Hres, Hdec.
Qed.


(** ** Sorting what is sorted *)

Lemma sorted_of_sorted {A} (lt : A → A → bool) l :
  StronglySorted (le_of lt) l → sorted lt l = l.
Proof.
  induction 1 as [|x l Hl IH Hx]; [done|]. simpl. rewrite IH.
  destruct l as [|y l]; [done|]. simpl.
  apply Forall_cons in Hx as [Hxy _]. unfold le_of in Hxy. by rewrite Hxy.
Qed.

Lemma sorted_children_idem fs lower parent l :
  sorted (child_lt fs lower parent) (sorted (child_lt fs lower parent) l) =
  sorted (child_lt fs lower parent) l.
Proof.
  apply sorted_of_sorted, sorted_sorted.
  - intros x y. apply key_lt_asym.
  - intros x y z. unfold le_of, child_lt. apply key_le_trans.
Qed.

(** ** The tree as a function of the index *)

Section Render.
Variable fs : node.
Variable lower : string → string.

Lemma sort_equiv_refl ch : sort_equiv fs lower ch ch.
Proof. by intros k. Qed.

Lemma sort_equiv_trans ch1 ch2 ch3 :
  sort_equiv fs lower ch1 ch2 → sort_equiv fs lower ch2 ch3 → sort_equiv fs lower ch1 ch3.
Proof. intros H1 H2 k. by rewrite H1. Qed.

Lemma sort_children_equiv parent g :
  sort_equiv fs lower (g_children (sort_children fs lower parent g).2) (g_children g).
Proof.
  unfold sort_children. destruct (g_children g !! parent) as [l|] eqn:E; simpl; [|done].
  intros k. destruct (decide (k = parent)) as [->|Hne].
  - rewrite lookup_insert_eq, E. simpl. apply sorted_children_idem.
  - by rewrite lookup_insert_ne.
Qed.

Lemma render_entries_ext rec1 rec2 parent prefix n :
  (∀ cp pre, rec1 cp pre = rec2 cp pre) →
  ∀ entries i,
  render_entries rec1 fs parent prefix n i entries =
  render_entries rec2 fs parent prefix n i entries.
Proof.
  intros Hrec. induction entries as [|name rest IH]; intros i; [done|]. simpl.
  by rewrite Hrec, IH.
Qed.

Lemma render_equiv ch1 ch2 fuel :
  sort_equiv fs lower ch1 ch2 →
  ∀ parent prefix, render fs lower ch1 fuel parent prefix = render fs lower ch2 fuel parent prefix.
Proof.
  intros Heq. induction fuel as [|fuel IH]; intros parent prefix; [done|]. simpl.
  rewrite (Heq parent). by apply render_entries_ext.
Qed.

Lemma add_entries_render fuel recur parent prefix n :
  (∀ cp pre g g', recur cp pre g = Some g' →
     sort_equiv fs lower (g_children g') (g_children g) ∧
     g_lines g' = g_lines g ++ render fs lower (g_children g) fuel cp pre) →
  ∀ entries i g g',
  add_entries fs recur parent prefix n i entries g = Some g' →
  sort_equiv fs lower (g_children g') (g_children g) ∧
  g_lines g' = g_lines g ++
    render_entries (render fs lower (g_children g) fuel) fs parent prefix n i entries.
Proof.
  intros Hrec. induction entries as [|name rest IH]; intros i g g'; simpl.
  - intros [= <-]. split; [apply sort_equiv_refl|by rewrite app_nil_r].
  - set (cp := parent ++ [name]). set (text := prefix +:+ _ +:+ name).
    set (g1 := append_line cp text g).
    destruct (is_dir fs cp).
    + destruct (recur cp _ g1) as [g2|] eqn:Hr; simpl; [|done].
      intros Ha. destruct (Hrec _ _ _ _ Hr) as [E2 L2].
      destruct (IH _ _ _ Ha) as [E3 L3]. split.
      * eapply sort_equiv_trans; [exact E3|exact E2].
      * rewrite L3, L2. simpl. rewrite <- !app_assoc. simpl. do 3 f_equal.
        apply render_entries_ext. intros cp' pre'. by apply render_equiv.
    + simpl. intros Ha. destruct (IH _ g1 _ Ha) as [E3 L3]. split; [exact E3|].
      rewrite L3. simpl. by rewrite <- !app_assoc.
Qed.

(** What [add_tree] appends is the rendering of the index as the call
    found it; the index it leaves lists the same entries. *)
Lemma add_tree_render fuel : ∀ parent prefix g g',
  add_tree fs lower fuel parent prefix g = Some g' →
  sort_equiv fs lower (g_children g') (g_children g) ∧
  g_lines g' = g_lines g ++ render fs lower (g_children g) fuel parent prefix.
Proof.
  induction fuel as [|fuel IH]; intros parent prefix g g'; simpl; [done|].
  pose proof (sort_children_equiv parent g) as He.
  pose proof (sort_children_spec fs lower parent g) as Hs.
  assert ((sort_children fs lower parent g).1 =
          sorted (child_lt fs lower parent) (default [] (g_children g !! parent))) as Hent.
  { unfold sort_children. by destruct (g_children g !! parent). }
  destruct (sort_children fs lower parent g) as [entries g1]. simpl in *.
  destruct Hs as (_ & L1 & _). subst entries. intros Ha.
  apply (add_entries_render fuel) in Ha; [|exact IH].
  destruct Ha as [E2 L2]. split.
  - eapply sort_equiv_trans; [exact E2|exact He].
  - rewrite L2, L1. f_equal. apply render_entries_ext.
    intros cp pre. by apply render_equiv.
Qed.
End Render.

(** ** The index has no repeats *)

Lemma register_nodup parent child ch :
  index_nodup ch → index_nodup (register parent child ch).
Proof.
  intros Hnd k l. unfold register.
  assert (NoDup (default [] (ch !! parent))) as Hl.
  { destruct (ch !! parent) as [l0|] eqn:E; simpl; [by eapply Hnd|constructor]. }
  destruct (decide (k = parent)) as [->|Hne].
  - case_bool_decide as Hin; rewrite lookup_insert_eq; intros [= <-]; [done|].
    apply NoDup_app. split_and!; [done| |apply NoDup_singleton].
    by intros x Hx ->%list_elem_of_singleton.
  - destruct (bool_decide _); rewrite lookup_insert_ne by done; apply Hnd.
Qed.

Lemma register_from_nodup rest : ∀ pre ch,
  index_nodup ch → index_nodup (register_from pre rest ch).
Proof.
  induction rest as [|c rest IH]; intros pre ch Hnd; [done|]. simpl.
  by apply IH, register_nodup.
Qed.

Lemma build_children_nodup root ps : ∀ ch ch',
  index_nodup ch → build_children root ps ch = Some ch' → index_nodup ch'.
Proof.
  induction ps as [|p ps IH]; intros ch ch' Hnd; simpl; [by intros [= <-]|].
  destruct (relative_to p root) as [rel|]; simpl; [|done].
  apply IH. rewrite register_parts_from. by apply register_from_nodup.
Qed.

Lemma index_nodup_empty : index_nodup ∅.
Proof. intros k l. by rewrite lookup_empty. Qed.

(** Every list of the index has an entry. *)
Lemma register_nonempty parent child ch :
  (∀ k, ch !! k ≠ Some []) → ∀ k, register parent child ch !! k ≠ Some [].
Proof.
  intros Hne k. unfold register.
  destruct (decide (k = parent)) as [->|Hk].
  - case_bool_decide as Hin; rewrite lookup_insert_eq.
    + intros [= E]. rewrite E in Hin. by apply elem_of_nil in Hin.
    + intros [= E]. by destruct (default [] (ch !! parent)).
  - destruct (bool_decide _); rewrite lookup_insert_ne by done; apply Hne.
Qed.

Lemma register_from_nonempty rest : ∀ pre ch,
  (∀ k, ch !! k ≠ Some []) → ∀ k, register_from pre rest ch !! k ≠ Some [].
Proof.
  induction rest as [|c rest IH]; intros pre ch Hne; [done|]. simpl.
  by apply IH, register_nonempty.
Qed.

Lemma build_children_nonempty root ps : ∀ ch ch',
  (∀ k, ch !! k ≠ Some []) → build_children root ps ch = Some ch' →
  ∀ k, ch' !! k ≠ Some [].
Proof.
  induction ps as [|p ps IH]; intros ch ch' Hne; simpl; [by intros [= <-]|].
  destruct (relative_to p root) as [rel|]; simpl; [|done].
  apply IH. rewrite register_parts_from. by apply register_from_nonempty.
Qed.

(** ** What the rendering shows *)

Section RenderFacts.
Variable fs : node.
Variable lower : string → string.
Variable ch : gmap path (list string).

Lemma render_entries_tags recur parent prefix n :
  (∀ name pre ln, ln ∈ recur (parent ++ [name]) pre →
     ∃ c r, ln.1 = (parent ++ [name]) ++ c :: r) →
  ∀ entries i ln,
  ln ∈ render_entries recur fs parent prefix n i entries →
  ∃ c r, c ∈ entries ∧ ln.1 = parent ++ c :: r.
Proof.
  intros Hrec. induction entries as [|name rest IH]; intros i ln; simpl.
  - by intros ?%elem_of_nil.
  - intros [->|[Hin|Hin]%elem_of_app]%elem_of_cons.
    + exists name, []. split; [left|done].
    + destruct (is_dir fs (parent ++ [name])); [|by apply elem_of_nil in Hin].
      destruct (Hrec _ _ _ Hin) as (c & r & E).
      exists name, (c :: r). split; [left|]. by rewrite E, <- app_assoc.
    + destruct (IH _ _ Hin) as (c & r & Hc & E). exists c, r. split; [by right|done].
Qed.

(** Every line drawn below [parent] shows something strictly below it,
    reached through an entry listed for [parent]. *)
Lemma render_tags fuel : ∀ parent prefix ln,
  ln ∈ render fs lower ch fuel parent prefix →
  ∃ c r, c ∈ default [] (ch !! parent) ∧ ln.1 = parent ++ c :: r.
Proof.
  induction fuel as [|fuel IH]; intros parent prefix ln; simpl.
  - by intros ?%elem_of_nil.
  - intros Hin. apply render_entries_tags in Hin.
    + destruct Hin as (c & r & Hc & E). exists c, r. split; [|done].
      by rewrite sorted_perm in Hc.
    + intros name pre ln' Hin'. destruct (IH _ _ _ Hin') as (c & r & _ & E). eauto.
Qed.

Lemma render_entries_NoDup recur parent prefix n :
  (∀ name pre ln, ln ∈ recur (parent ++ [name]) pre →
     ∃ c r, ln.1 = (parent ++ [name]) ++ c :: r) →
  (∀ name pre, NoDup (recur (parent ++ [name]) pre).*1) →
  ∀ entries i, NoDup entries →
  NoDup (render_entries recur fs parent prefix n i entries).*1.
Proof.
  intros Htag Hnd. induction entries as [|name rest IH]; intros i Hent; simpl.
  - constructor.
  - apply NoDup_cons in Hent as [Hname Hrest].
    rewrite fmap_app. apply NoDup_cons. split.
    + intros [Hin|Hin]%elem_of_app; apply list_elem_of_fmap in Hin as (ln & E & Hin).
      * destruct (is_dir fs (parent ++ [name])); [|by apply elem_of_nil in Hin].
        destruct (Htag _ _ _ Hin) as (c & r & E'). rewrite E' in E.
        apply (f_equal length) in E. rewrite !length_app in E. simpl in E. lia.
      * destruct (render_entries_tags _ _ _ _ Htag _ _ _ Hin) as (c & r & Hc & E').
        rewrite E' in E. apply app_inv_head in E. injection E as -> _.
        by apply Hname.
    + apply NoDup_app. split_and!.
      * destruct (is_dir fs (parent ++ [name])); [apply Hnd|constructor].
      * intros q Hq1 Hq2.
        apply list_elem_of_fmap in Hq1 as (ln1 & -> & Hin1).
        apply list_elem_of_fmap in Hq2 as (ln2 & E & Hin2).
        destruct (is_dir fs (parent ++ [name])); [|by apply elem_of_nil in Hin1].
        destruct (Htag _ _ _ Hin1) as (c1 & r1 & E1).
        destruct (render_entries_tags _ _ _ _ Htag _ _ _ Hin2) as (c2 & r2 & Hc2 & E2).
        rewrite E1, E2, <- app_assoc in E. apply app_inv_head in E.
        injection E as -> _. by apply Hname.
      * by apply IH.
Qed.

(** No entry is drawn twice. *)
Lemma render_NoDup fuel : index_nodup ch →
  ∀ parent prefix, NoDup (render fs lower ch fuel parent prefix).*1.
Proof.
  intros Hnd. induction fuel as [|fuel IH]; intros parent prefix; simpl; [constructor|].
  apply render_entries_NoDup.
  - intros name pre ln Hin. destruct (render_tags _ _ _ _ Hin) as (c & r & _ & E). eauto.
  - intros name pre. apply IH.
  - rewrite sorted_perm. destruct (ch !! parent) as [l|] eqn:E; simpl; [|constructor].
    by eapply Hnd.
Qed.

Lemma render_entries_has recur parent prefix n c :
  ∀ entries i, c ∈ entries →
  ∃ text pre,
    (parent ++ [c], text) ∈ render_entries recur fs parent prefix n i entries ∧
    (is_dir fs (parent ++ [c]) = true →
     ∀ ln, ln ∈ recur (parent ++ [c]) pre →
           ln ∈ render_entries recur fs parent prefix n i entries).
Proof.
  induction entries as [|name rest IH]; intros i Hc; [by apply elem_of_nil in Hc|].
  simpl. destruct (decide (c = name)) as [->|Hne].
  - eexists _, _. split; [left|]. intros Hd ln Hin. rewrite Hd.
    right. apply elem_of_app. left. exact Hin.
  - apply elem_of_cons in Hc as [->|Hc]; [done|].
    destruct (IH (S i) Hc) as (text & pre & H1 & H2). exists text, pre. split.
    + right. apply elem_of_app. by right.
    + intros Hd ln Hin. right. apply elem_of_app. right. by apply H2.
Qed.

(** Everything on a route of listed entries through directories is drawn,
    given fuel for the length of the route. *)
Lemma render_complete r : ∀ fuel parent prefix,
  (length r ≤ fuel)%nat → on_route fs ch parent r →
  (parent ++ r) ∈ (render fs lower ch fuel parent prefix).*1.
Proof.
  induction r as [|c r IH]; intros fuel parent prefix Hfuel; simpl; [done|].
  intros [(l & Hl & Hc) Hnext].
  destruct fuel as [|fuel]; [simpl in Hfuel; lia|]. simpl in *.
  destruct (render_entries_has (render fs lower ch fuel) parent prefix
    (length (sorted (child_lt fs lower parent) (default [] (ch !! parent)))) c
    (sorted (child_lt fs lower parent) (default [] (ch !! parent))) 0)
    as (text & pre & H1 & H2).
  { rewrite sorted_perm, Hl. done. }
  destruct Hnext as [->|[Hd Hroute]].
  - apply list_elem_of_fmap. by exists (parent ++ [c], text).
  - assert (((parent ++ [c]) ++ r) ∈ (render fs lower ch fuel (parent ++ [c]) pre).*1) as Hin.
    { apply IH; [lia|done]. }
    apply list_elem_of_fmap in Hin as (ln & E & Hin).
    apply list_elem_of_fmap. exists ln. split; [by rewrite <- E, <- app_assoc|].
    by apply H2.
Qed.
End RenderFacts.

Lemma concat_empty_cons x xs : String.concat "" (x :: xs) = x +:+ String.concat "" xs.
Proof. destruct xs; simpl; [by rewrite append_nil_r|done]. Qed.

Section RenderText.
Variable fs : node.
Variable lower : string → string.
Variable ch : gmap path (list string).

Lemma render_entries_direct recur parent prefix n :
  (∀ name pre ln, ln ∈ recur (parent ++ [name]) pre →
     ∃ c r, ln.1 = (parent ++ [name]) ++ c :: r) →
  ∀ entries i,
  filter (direct parent) (render_entries recur fs parent prefix n i entries) =
  imap (λ j c, (parent ++ [c], prefix +:+ connector_at n (i + j) +:+ c)) entries.
Proof.
  intros Htag. induction entries as [|name rest IH]; intros i; [done|]. simpl.
  rewrite filter_cons_True.
  2:{ unfold direct. simpl. rewrite length_app. simpl. lia. }
  rewrite filter_app, (filter_none _ (if is_dir fs (parent ++ [name]) then _ else _)).
  2:{ destruct (is_dir fs (parent ++ [name])); [|constructor].
      apply Forall_forall. intros ln Hin. destruct (Htag _ _ _ Hin) as (c & r & E).
      unfold direct. rewrite E, !length_app. simpl. lia. }
  simpl. rewrite IH. unfold connector_at. rewrite Nat.add_0_r. f_equal.
  apply imap_ext. intros j c _. simpl. by rewrite Nat.add_succ_r.
Qed.

Lemma render_direct fuel parent prefix :
  filter (direct parent) (render fs lower ch (S fuel) parent prefix) =
  imap (λ j c, (parent ++ [c],
                prefix +:+ connector_at
                  (length (sorted (child_lt fs lower parent) (default [] (ch !! parent)))) j
                +:+ c))
    (sorted (child_lt fs lower parent) (default [] (ch !! parent))).
Proof.
  simpl. rewrite render_entries_direct; [done|].
  intros name pre ln Hin. destruct (render_tags _ _ _ _ _ _ _ Hin) as (c & r & _ & E). eauto.
Qed.

Lemma render_entries_text recur parent prefix n :
  (∀ name pre ln, ln ∈ recur (parent ++ [name]) pre → line_ok (parent ++ [name]) pre ln) →
  ∀ entries i ln,
  ln ∈ render_entries recur fs parent prefix n i entries → line_ok parent prefix ln.
Proof.
  intros Hrec. induction entries as [|name rest IH]; intros i ln; simpl.
  - by intros ?%elem_of_nil.
  - intros [->|[Hin|Hin]%elem_of_app]%elem_of_cons.
    + exists parent, name, [], (if bool_decide (i = n - 1) then connector_last else connector_more).
      simpl. split_and!; [done|done|constructor|lia|by case_bool_decide; auto].
    + destruct (is_dir fs (parent ++ [name])); [|by apply elem_of_nil in Hin].
      destruct (Hrec _ _ _ Hin) as (par & nm & gs & conn & E1 & E2 & Hg & Hl & Hc).
      exists par, nm,
        ((if bool_decide (i = n - 1) then extension_last else extension_more) :: gs), conn.
      split_and!; [done| | | |done].
      * by rewrite E2, concat_empty_cons, !append_assoc.
      * constructor; [by case_bool_decide; auto|done].
      * rewrite Hl, length_app. simpl. lia.
    + by eapply IH.
Qed.

Lemma render_text fuel : ∀ parent prefix ln,
  ln ∈ render fs lower ch fuel parent prefix → line_ok parent prefix ln.
Proof.
  induction fuel as [|fuel IH]; intros parent prefix ln; simpl.
  - by intros ?%elem_of_nil.
  - apply render_entries_text. intros name pre ln'. apply IH.
Qed.
End RenderText.

(** ** Paths that resolve *)

Lemma resolve_app a : ∀ d b x,
  resolve d (a ++ b) = Some x → ∃ y, resolve d a = Some y ∧ resolve y b = Some x.
Proof.
  induction a as [|name a IH]; intros d b x; simpl; [eauto|].
  destruct d as [|es]; [done|]. destruct (entry name es) as [y|]; [|done]. apply IH.
Qed.

Lemma resolve_height p : ∀ d x, resolve d p = Some x → (length p ≤ height d)%nat.
Proof.
  induction p as [|name p IH]; intros d x; simpl; [lia|].
  destruct d as [|es]; [done|].
  destruct (entry name es) as [y|] eqn:He; [|done].
  intros Hr. apply IH in Hr. apply entry_Some in He.
  assert (height y ≤ max_list (map (λ e, height e.2) es))%nat.
  { apply max_list_elem_of_le. apply list_elem_of_fmap. by exists (name, y). }
  simpl. lia.
Qed.

(** What lies above a file is a directory. *)
Lemma is_dir_above_file fs a b :
  b ≠ [] → is_file fs (a ++ b) = true → is_dir fs a = true.
Proof.
  unfold is_file, is_dir. intros Hb Hf.
  destruct (resolve fs (a ++ b)) as [x|] eqn:E; [|done].
  apply resolve_app in E as (y & -> & Hy).
  destruct y as [|es]; [|done]. by destruct b.
Qed.

(** ** Line breaks of the text read *)

Lemma universal_newlines_no_cr s : has_cr (universal_newlines s) = false.
Proof.
  induction s as [|c r IH]; [done|]. simpl.
  case_bool_decide as Hc.
  - destruct r as [|c' r']; [done|].
    case_bool_decide as Hc'.
    + subst c'. exact IH.
    + exact IH.
  - simpl. by rewrite bool_decide_false.
Qed.

Lemma universal_newlines_id s : has_cr s = false → universal_newlines s = s.
Proof.
  induction s as [|c r IH]; [done|]. simpl.
  intros [Hc Hr]%orb_false_iff. rewrite Hc. by rewrite IH.
Qed.

(** ** Joining and splitting at slashes *)

Lemma split_slash_one x : has_slash x = false → split_slash x = [x].
Proof.
  induction x as [|c x IH]; [done|]. simpl.
  intros [Hc Hx]%orb_false_iff. rewrite Hc. by rewrite IH.
Qed.

Lemma split_slash_app x r :
  has_slash x = false →
  split_slash (x +:+ String "/" r) = x :: split_slash r.
Proof.
  induction x as [|c x IH]; [done|]. rewrite append_cons. simpl.
  intros [Hc Hx]%orb_false_iff. rewrite Hc. by rewrite IH.
Qed.

Lemma split_slash_concat rel :
  rel ≠ [] → Forall (λ x, has_slash x = false) rel →
  split_slash (String.concat "/" rel) = rel.
Proof.
  induction rel as [|x rel IH]; [done|]. intros _ Hrel.
  apply Forall_cons in Hrel as [Hx Hrel].
  destruct rel as [|y rel]; [by apply split_slash_one|].
  change (String.concat "/" (x :: y :: rel))
    with (x +:+ String "/" (String.concat "/" (y :: rel))).
  rewrite split_slash_app by done. f_equal. by apply IH.
Qed.

Lemma length_append s t : String.length (s +:+ t) = (String.length s + String.length t)%nat.
Proof. induction s as [|c s IH]; [done|]. rewrite append_cons. simpl. by rewrite IH. Qed.

Lemma append_inj_r s1 : ∀ s2 t, s1 +:+ t = s2 +:+ t → s1 = s2.
Proof.
  induction s1 as [|c s1 IH]; intros s2 t E.
  - destruct s2 as [|c2 s2]; [done|]. apply (f_equal String.length) in E.
    rewrite append_nil_l, append_cons in E. simpl in E. rewrite length_append in E. lia.
  - destruct s2 as [|c2 s2].
    + apply (f_equal String.length) in E.
      rewrite append_nil_l, append_cons in E. simpl in E. rewrite length_append in E. lia.
    + rewrite !append_cons in E. injection E as -> E. f_equal. by eapply IH.
Qed.

Lemma delimiter_inj rel1 rel2 :
  rel1 ≠ [] → rel2 ≠ [] →
  Forall (λ x, has_slash x = false) rel1 → Forall (λ x, has_slash x = false) rel2 →
  delimiter rel1 = delimiter rel2 → rel1 = rel2.
Proof.
  intros H1 H2 F1 F2 E. unfold delimiter in E.
  apply (inj (String.app _)) in E. apply append_inj_r in E.
  rewrite !as_posix_concat in E by done.
  rewrite <- (split_slash_concat rel1), <- (split_slash_concat rel2) by done.
  by rewrite E.
Qed.

(** ** Where the walk goes *)

Lemma os_walk_Dir keep top es step :
  step ∈ os_walk keep top (Dir es) ↔
  step = (top, filter (λ n, keep n = true) (dirnames_of es), filenames_of es) ∨
  ∃ e, e ∈ es ∧ node_is_dir e.2 = true ∧ keep e.1 = true ∧
       step ∈ os_walk keep (top ++ [e.1]) e.2.
Proof.
  simpl. rewrite elem_of_cons, elem_of_flat_map. split.
  - intros [->|(e & He & Hs)]; [by left|]. right. exists e.
    destruct (node_is_dir e.2) eqn:E1; [|by apply elem_of_nil in Hs].
    destruct (keep e.1) eqn:E2; [|by apply elem_of_nil in Hs]. done.
  - intros [->|(e & He & E1 & E2 & Hs)]; [by left|]. right. exists e.
    by rewrite E1, E2.
Qed.

(** The walk stays out of what is cut: no part below [top] of a directory
    it visits is excluded, and no name it goes on with is. *)
Lemma os_walk_sound d : ∀ top step,
  step ∈ os_walk not_excluded top d →
  ∃ r, step.1.1 = top ++ r ∧ any_excluded r = false ∧
       Forall (λ n, n ∉ exclude_dirs) step.1.2.
Proof.
  induction d as [data|es IH] using node_ind'; intros top step.
  - simpl. by intros ?%elem_of_nil.
  - rewrite os_walk_Dir. intros [->|([n x] & He & Hd & Hk & Hs)].
    + exists []. simpl. rewrite app_nil_r. split_and!; [done|done|].
      apply Forall_forall. intros m [Hm _]%list_elem_of_filter.
      by apply bool_decide_eq_true in Hm.
    + simpl in *. rewrite Forall_forall in IH.
      destruct (IH _ He _ _ Hs) as (r & E & Hx & Hnames). simpl in *.
      apply bool_decide_eq_true in Hk.
      exists (n :: r). rewrite E, <- app_assoc. split_and!; [done| |done].
      simpl. rewrite Hx. by rewrite bool_decide_false.
Qed.

(** The walk visits every directory that no excluded part leads to, and
    yields its listing. *)
Lemma os_walk_complete r : ∀ d top es,
  resolve d r = Some (Dir es) → any_excluded r = false →
  (top ++ r, filter (λ n, not_excluded n = true) (dirnames_of es), filenames_of es)
    ∈ os_walk not_excluded top d.
Proof.
  induction r as [|name r IH]; intros d top es; simpl.
  - intros [= ->] _. rewrite app_nil_r, os_walk_Dir. by left.
  - destruct d as [|es0]; [done|].
    destruct (entry name es0) as [x|] eqn:He; [|done].
    intros Hr [Hn Hx]%orb_false_iff. apply bool_decide_eq_false in Hn.
    apply entry_Some in He. rewrite os_walk_Dir. right. exists (name, x).
    split_and!; [done| | |].
    + simpl. destruct x; [|done]. by destruct r.
    + by apply bool_decide_eq_true.
    + simpl. replace (top ++ name :: r) with ((top ++ [name]) ++ r)
        by by rewrite <- app_assoc.
      by apply IH.
Qed.

(** ** The whole tree *)

Section WholeTree.
Variable root : path.
Variable fs : node.
Variable lower : string → string.

Lemma built_index :
  ∃ ch, build_children root (files root fs) ∅ = Some ch ∧
    index_nodup ch ∧ (∀ k, ch !! k ≠ Some []) ∧
    ∀ par c, has_child ch par c ↔
             ∃ rest, (root ++ par ++ c :: rest) ∈ files root fs.
Proof.
  destruct (build_children_total root (files root fs) ∅ (files_relative root fs))
    as [ch Hb].
  exists ch. split_and!; [done| | |].
  - eapply build_children_nodup; [apply index_nodup_empty|exact Hb].
  - eapply build_children_nonempty; [|exact Hb]. intros k. by rewrite lookup_empty.
  - intros par c. rewrite (build_children_has_child _ _ _ _ _ _ Hb). split.
    + intros [[]%has_child_empty|(p & rest & Hp & Hrel)].
      apply relative_to_Some in Hrel. subst p. by exists rest.
    + intros [rest Hp]. right. exists (root ++ par ++ c :: rest), rest.
      split; [done|]. apply relative_to_app.
Qed.

Lemma route_of_file ch rest q : ∀ a,
  (∀ par c, has_child ch par c ↔ ∃ rest', (root ++ par ++ c :: rest') ∈ files root fs) →
  q ≠ [] → (root ++ a ++ q ++ rest) ∈ files root fs →
  is_file fs (a ++ q ++ rest) = true →
  on_route fs ch a q.
Proof.
  intros a Hidx. revert a. induction q as [|c q IH]; intros a Hq Hin Hf; [done|].
  simpl. split.
  - apply Hidx. by exists (q ++ rest).
  - destruct q as [|c' q]; [by left|]. right.
    assert (a ++ (c :: c' :: q) ++ rest = (a ++ [c]) ++ (c' :: q) ++ rest) as E
      by by rewrite <- app_assoc.
    split.
    + eapply (is_dir_above_file fs _ ((c' :: q) ++ rest)); [done|]. by rewrite <- E.
    + apply IH; [done| |]; by rewrite <- E.
Qed.
End WholeTree.

(** ** The passes of the dump loop *)

Section Passes.
Variable root : path.

(** The section of a file is written by its pass of the loop, from the
    document as the passes before it left it. *)
Lemma file_sections_lookup read ps : ∀ w secs i p s,
  file_sections root read ps w = Some secs → secs !! i = Some (p, s) →
  dump_file root read p (w +:+ String.concat "" (take i secs).*2) =
    Some ((w +:+ String.concat "" (take i secs).*2) +:+ s).
Proof.
  induction ps as [|p0 ps IH]; intros w secs i p s; simpl.
  - by intros [= <-].
  - destruct (file_section root read w p0) as [s0|] eqn:E0; simpl; [|done].
    destruct (file_sections root read ps (w +:+ s0)) as [rest|] eqn:Er; simpl; [|done].
    intros [= <-]. destruct i as [|i].
    + simpl. intros [= <- <-]. rewrite append_nil_r, dump_file_section, E0. done.
    + intros Hi.
      change ((take (S i) ((p0, s0) :: rest)).*2) with (s0 :: (take i rest).*2).
      rewrite concat_empty_cons, <- (append_assoc w).
      by apply (IH _ _ _ _ _ Er).
Qed.



End Passes.

(** Away from the document itself the disk is the tree. *)
Lemma disk_read_tree root fs flushed w p :
  p ≠ output root →
  disk_read root fs flushed w p =
    match relative_to p root ≫= resolve fs with
    | Some (File data) => data
    | Some (Dir _) => ReadErr "Is a directory"
    | None => ReadErr "No such file or directory"
    end.
Proof. intros Hp. unfold disk_read. by rewrite bool_decide_eq_false_2. Qed.

Lemma run_sections_file_sections root fs lower flushed secs :
  run_sections root fs lower flushed = Some secs →
  ∃ g, draw_tree root fs lower = Some g ∧
       file_sections root (disk_read root fs flushed)
         (sorted path_lt (files root fs)) (preamble g) = Some secs.
Proof.
  unfold run_sections. destruct (draw_tree root fs lower) as [g|] eqn:Hg; simpl; [|done].
  destruct (is_dir fs [output_name]); [done|].
  apply draw_tree_spec in Hg as (F & _). rewrite F. eauto.
Qed.

(** The section of a file of the tree whose read raises *)
Lemma run_section_of_error root fs lower flushed secs rel msg :
  run_sections root fs lower flushed = Some secs →
  (root ++ rel) ∈ files root fs → root ++ rel ≠ output root →
  resolve fs rel = Some (File (ReadErr msg)) →
  (root ++ rel,
   delimiter rel +:+ ("[Error reading file: " +:+ msg +:+ "]") +:+ nl +:+ nl) ∈ secs.
Proof.
  intros Hs Hin Hne Hres.
  destruct (run_sections_file_sections _ _ _ _ _ Hs) as (g & Hg & Hf).
  pose proof (file_sections_paths _ _ _ _ _ Hf) as Hp.
  assert ((root ++ rel) ∈ secs.*1) as Hin'.
  { rewrite Hp, sorted_perm. done. }
  apply list_elem_of_fmap in Hin' as ([p s] & E & Hps). simpl in E. subst p.
  destruct (file_sections_elem _ _ _ _ _ _ _ Hf Hps) as [before Hb].
  unfold file_section in Hb. rewrite relative_to_app in Hb. simpl in Hb.
  unfold content_of, read_text_safely in Hb.
  rewrite disk_read_tree in Hb by done.
  rewrite relative_to_app in Hb. simpl in Hb. rewrite Hres in Hb.
  fold (placeholder msg) in Hb. rewrite placeholder_no_nl in Hb.
  injection Hb as <-. exact Hps.
Qed.

(** * The claims *)



(** C2 (the code departs from the claim): with a directory named [dist]
    above the root, [a.txt], a file none of whose parts below the root is
    excluded, is not collected.  Nothing is: an excluded part above the
    root excludes every file. *)
Theorem C2_part_above_root_excludes :
  is_file scenario ["a.txt"] = true ∧
  any_excluded ["a.txt"] = false ∧
  (["/"; "srv"; "dist"; "a.txt"] ∉ files ["/"; "srv"; "dist"] scenario) ∧
  files ["/"; "srv"; "dist"] scenario = [] ∧
  (∀ root fs p, any_excluded root = true → p ∉ files root fs).
Proof.
  split_and!; [vm_compute; reflexivity..| |vm_compute; reflexivity|].
  - assert (files ["/"; "srv"; "dist"] scenario = []) as -> by (vm_compute; reflexivity).
    apply not_elem_of_nil.
  - intros root fs p Hroot (rel & -> & _ & Hx)%files_under_root.
    rewrite any_excluded_app, Hroot in Hx. discriminate.
Qed.

(** C3 (the code departs from the claim): with a directory named [dist]
    above the root the document is written and has no file section at all,
    so none for [a.txt]. *)
Theorem C3_no_section_below_excluded_root :
  is_file scenario ["a.txt"] = true ∧
  any_excluded ["a.txt"] = false ∧
  run_sections ["/"; "srv"; "dist"] scenario ascii_lower nothing_flushed = Some [].
Proof. split_and!; vm_compute; reflexivity. Qed.




(** C5: the text written between the delimiter and the blank line ends
    with a line break; it is the content with one line break appended when
    the content does not end with one, and the content itself when it
    does. *)
Theorem C5_trailing_newline
    (root : path) (read : string → path → read_result)
    (w : string) (p rel : path) :
  relative_to p root = Some rel →
  ∃ body,
    dump_file root read p w = Some (w +:+ delimiter rel +:+ body +:+ nl) ∧
    file_section root read w p = Some (delimiter rel +:+ body +:+ nl) ∧
    endswith_nl body = true ∧
    (endswith_nl (content_of read (w +:+ delimiter rel) p) = false →
     body = content_of read (w +:+ delimiter rel) p +:+ nl) ∧
    (endswith_nl (content_of read (w +:+ delimiter rel) p) = true →
     body = content_of read (w +:+ delimiter rel) p).
Proof.
  intros Hrel. rewrite dump_file_section. unfold file_section. rewrite Hrel.
  cbn [mbind option_bind fmap option_fmap option_map].
  set (content := content_of read (w +:+ delimiter rel) p).
  destruct (endswith_nl content) eqn:E.
  - exists content. rewrite append_nil_l.
    split_and!; [reflexivity|reflexivity|exact E|discriminate|reflexivity].
  - exists (content +:+ nl). rewrite !append_assoc.
    split_and!; [reflexivity|reflexivity| |reflexivity|discriminate].
    apply endswith_nl_app_nl.
Qed.

Lemma C5_witness :
  relative_to (scenario_root ++ ["a.txt"]) scenario_root = Some ["a.txt"] ∧
  ∃ body,
    dump_file scenario_root (disk_read scenario_root scenario nothing_flushed)
      (scenario_root ++ ["a.txt"]) "" = Some ("" +:+ delimiter ["a.txt"] +:+ body +:+ nl) ∧
    endswith_nl body = true.
Proof.
  assert (relative_to (scenario_root ++ ["a.txt"]) scenario_root = Some ["a.txt"]) as H1
    by (vm_compute; reflexivity).
  split; [exact H1|].
  destruct (C5_trailing_newline scenario_root
              (disk_read scenario_root scenario nothing_flushed) ""
              (scenario_root ++ ["a.txt"]) ["a.txt"] H1) as (body & Hd & _ & He & _).
  exists body. split; [exact Hd|exact He].
Defined.

(** C6: the dump loop gets through every list of collected paths and
    writes one section for each, whatever the reads give; for a file whose
    read raises, the pass writes the delimiter, the line
    [[Error reading file: <the error's text>]] and the blank line, and
    that line is one line when the error's text is.  In a run, unless a
    directory has the document's name, the document is written with a
    section for every collected file, and the section of a file of the
    tree that cannot be read is that text. *)
Theorem C6_read_error_isolated
    (root : path) (read : string → path → read_result)
    (ps : list path) (w : string)
    (fs : node) (lower : string → string) (flushed : string → nat) :
  Forall (λ p, is_Some (relative_to p root)) ps →
  (∃ secs,
    file_sections root read ps w = Some secs ∧
    dump_files root read ps w = Some (w +:+ String.concat "" secs.*2) ∧
    secs.*1 = ps ∧
    ∀ p s rel msg,
      (p, s) ∈ secs → relative_to p root = Some rel →
      (∀ w', read w' p = ReadErr msg) →
      s = delimiter rel +:+ ("[Error reading file: " +:+ msg +:+ "]") +:+ nl +:+ nl ∧
      (∀ w0, dump_file root read p w0 = Some (w0 +:+ s)) ∧
      (has_nl msg = false →
       has_nl ("[Error reading file: " +:+ msg +:+ "]") = false)) ∧
  (is_dir fs [output_name] = false →
   ∃ g secs,
     draw_tree root fs lower = Some g ∧
     run_sections root fs lower flushed = Some secs ∧
     secs.*1 = sorted path_lt (files root fs) ∧
     run root fs lower flushed = Some (preamble g +:+ String.concat "" secs.*2) ∧
     ∀ rel msg,
       (root ++ rel) ∈ files root fs → root ++ rel ≠ output root →
       resolve fs rel = Some (File (ReadErr msg)) →
       (root ++ rel,
        delimiter rel +:+ ("[Error reading file: " +:+ msg +:+ "]") +:+ nl +:+ nl)
         ∈ secs).
Proof.
  intros Hps. split.
  - destruct (file_sections_total root read ps w Hps) as [secs Hs].
    exists secs. split_and!; [done| |by eapply file_sections_paths|].
    + by rewrite dump_files_sections, Hs.
    + intros p s rel msg Hin Hrel Hread.
      destruct (file_sections_elem _ _ _ _ _ _ _ Hs Hin) as [before Hb].
      assert (∀ w0, file_section root read w0 p =
                Some (delimiter rel +:+ placeholder msg +:+ nl +:+ nl)) as Hsec.
      { intros w0. unfold file_section. rewrite Hrel. simpl.
        unfold content_of, read_text_safely. rewrite Hread.
        fold (placeholder msg). by rewrite placeholder_no_nl. }
      rewrite Hsec in Hb. injection Hb as <-. split_and!.
      * done.
      * intros w0. by rewrite dump_file_section, Hsec.
      * intros Hm. by rewrite !has_nl_app, Hm.
  - intros Hd.
    destruct (run_sections_total root fs lower flushed Hd) as (g & secs & Hg & Hs & Hp & Hr).
    exists g, secs. split_and!; [done|done|done|done|].
    intros rel msg. by apply (run_section_of_error root fs lower flushed).
Qed.

Lemma C6_witness :
  ∃ secs,
    dump_files scenario_root unreadable
      [scenario_root ++ ["secret.txt"]; scenario_root ++ ["a.txt"]] "" =
      Some (String.concat "" secs.*2) ∧
    secs.*1 = [scenario_root ++ ["secret.txt"]; scenario_root ++ ["a.txt"]] ∧
    (scenario_root ++ ["secret.txt"],
     "--- FILE: secret.txt ---" +:+ nl +:+
     "[Error reading file: [Errno 13] Permission denied: 'secret.txt']" +:+ nl +:+ nl)
      ∈ secs.
Proof.
  destruct (C6_read_error_isolated scenario_root unreadable
              [scenario_root ++ ["secret.txt"]; scenario_root ++ ["a.txt"]] ""
              scenario_secret ascii_lower nothing_flushed)
    as [(secs & Hs & Hd & Hp & Herr) _].
  - repeat constructor; vm_compute; eexists; reflexivity.
  - exists secs. split; [exact Hd|]. split; [exact Hp|].
    assert ((scenario_root ++ ["secret.txt"]) ∈ secs.*1) as Hin.
    { rewrite Hp. by left. }
    apply list_elem_of_fmap in Hin as ([p s] & E & Hin). simpl in E. subst p.
    destruct (Herr _ s ["secret.txt"] "[Errno 13] Permission denied: 'secret.txt'" Hin)
      as (-> & _); [vm_compute; reflexivity|intros w'; vm_compute; reflexivity|].
    exact Hin.
Defined.





(** C9: unless a directory has the document's name the run writes the
    document, the tree part followed by the sections of the collected
    files in ascending order, every section written by its pass of the
    dump loop from the document as the passes before left it.  Every
    section starts with the line
    [--- FILE: <parts of the relative path joined by "/"> ---], goes on
    with the content found for the file, ended by a line break, and ends
    with an empty line.  The content of a readable UTF-8 file other than
    the document itself is its text. *)
Theorem C9_section_format
    (root : path) (fs : node) (lower : string → string) (flushed : string → nat) :
  is_dir fs [output_name] = false →
  ∃ g secs,
    draw_tree root fs lower = Some g ∧
    run_sections root fs lower flushed = Some secs ∧
    run root fs lower flushed = Some (preamble g +:+ String.concat "" secs.*2) ∧
    secs.*1 = sorted path_lt (files root fs) ∧
    (∀ i p s,
       secs !! i = Some (p, s) →
       dump_file root (disk_read root fs flushed) p
         (preamble g +:+ String.concat "" (take i secs).*2) =
         Some ((preamble g +:+ String.concat "" (take i secs).*2) +:+ s)) ∧
    ∀ p s, (p, s) ∈ secs →
    ∃ rel w content,
      p = root ++ rel ∧ rel ≠ [] ∧
      content = content_of (disk_read root fs flushed) w p ∧
      s = "--- FILE: " +:+ String.concat "/" rel +:+ " ---" +:+ nl +:+
          content +:+ (if endswith_nl content then "" else nl) +:+ nl ∧
      (∀ b, p ≠ output root → resolve fs rel = Some (File (ReadOk b)) →
            utf8_decode b = Some b → content = universal_newlines b).
Proof.
  intros Hd.
  destruct (run_sections_total root fs lower flushed Hd) as (g & secs & Hg & Hs & Hp & Hr).
  destruct (run_sections_file_sections _ _ _ _ _ Hs) as (g' & Hg' & Hf).
  assert (g' = g) as -> by congruence.
  exists g, secs. split_and!; [done|done|done|done| |].
  - intros i p s Hi. by apply (file_sections_lookup _ _ _ _ _ _ _ _ Hf).
  - intros p s Hin. by eapply section_format.
Qed.

Lemma C9_witness :
  is_dir scenario [output_name] = false ∧
  ∃ (g : globals) (secs : list (path * string)),
    run scenario_root scenario ascii_lower nothing_flushed =
      Some (preamble g +:+ String.concat "" secs.*2) ∧
    (∃ w0, dump_file scenario_root (disk_read scenario_root scenario nothing_flushed)
             (scenario_root ++ ["a.txt"]) w0 =
           Some (w0 +:+ "--- FILE: a.txt ---" +:+ nl +:+ "hi" +:+ nl +:+ nl)) ∧
    ∃ rel w content,
      scenario_root ++ ["a.txt"] = scenario_root ++ rel ∧ rel ≠ [] ∧
      content = content_of (disk_read scenario_root scenario nothing_flushed) w
                  (scenario_root ++ ["a.txt"]) ∧
      "--- FILE: a.txt ---" +:+ nl +:+ "hi" +:+ nl +:+ nl =
        "--- FILE: " +:+ String.concat "/" rel +:+ " ---" +:+ nl +:+
        content +:+ (if endswith_nl content then "" else nl) +:+ nl.
Proof.
  assert (is_dir scenario [output_name] = false) as H1 by (vm_compute; reflexivity).
  split; [exact H1|].
  destruct (C9_section_format scenario_root scenario ascii_lower nothing_flushed H1)
    as (g & secs & Hg & Hs & Hr & Hp & Hw & Hfmt).
  exists g, secs. split; [exact Hr|].
  assert (secs = scenario_sections) as ->.
  { assert (run_sections scenario_root scenario ascii_lower nothing_flushed
            = Some scenario_sections) as H2 by (vm_compute; reflexivity).
    congruence. }
  split.
  - exists (preamble g +:+ String.concat "" (take 1 scenario_sections).*2).
    apply (Hw 1%nat (scenario_root ++ ["a.txt"])
             ("--- FILE: a.txt ---" +:+ nl +:+ "hi" +:+ nl +:+ nl)).
    vm_compute. reflexivity.
  - destruct (Hfmt (scenario_root ++ ["a.txt"])
                ("--- FILE: a.txt ---" +:+ nl +:+ "hi" +:+ nl +:+ nl))
      as (rel & w & content & E1 & E2 & E3 & E4 & _).
    { apply (bool_decide_unpack _); vm_compute; exact I. }
    exists rel, w, content. split_and!; assumption.
Defined.




(** X1, beyond the claims: below a root none of whose own parts is excluded,
    and in a tree with unique names, the collected paths are the files no
    part of whose relative path is excluded. *)
Theorem X1_files_below_clean_root (root : path) (fs : node) (rel : path) :
  wf_node fs = true → any_excluded root = false →
  (root ++ rel) ∈ files root fs ↔
  rel ≠ [] ∧ is_file fs rel = true ∧ any_excluded rel = false.
Proof.
  intros Hwf Hroot. split.
  - intros Hin.
    destruct (files_under_root _ _ _ Hin) as (_ & _ & _ & Hx).
    rewrite any_excluded_app, Hroot in Hx.
    destruct (files_from_file _ _ _ Hwf Hin) as (rel' & E & Hne & Hf).
    apply app_inv_head in E. by subst rel'.
  - intros (Hne & Hf & Hx). apply files_from_complete; [done|done|].
    by rewrite any_excluded_app, Hroot, Hx.
Qed.

Lemma X1_witness :
  wf_node scenario = true ∧ any_excluded scenario_root = false ∧
  (scenario_root ++ ["sub"; "b.txt"]) ∈ files scenario_root scenario.
Proof.
  assert (wf_node scenario = true) as H1 by (vm_compute; reflexivity).
  assert (any_excluded scenario_root = false) as H2 by (vm_compute; reflexivity).
  split; [exact H1|]. split; [exact H2|].
  apply (X1_files_below_clean_root scenario_root scenario ["sub"; "b.txt"] H1 H2).
  split; [discriminate|]. split; vm_compute; reflexivity.
Defined.



(** X3, beyond the claims: the walk keeps out of what the loop cuts from
    [dirnames].  Every directory it yields lies below the root with no
    excluded part on the way, and the names it goes on with hold no excluded
    name; every directory of the tree that no excluded part leads to is
    yielded, with its listing. *)
Theorem X3_walk_keeps_out_of_excluded (root : path) (fs : node) :
  (∀ dirpath dirnames filenames,
     (dirpath, dirnames, filenames) ∈ os_walk not_excluded root fs →
     ∃ r, dirpath = root ++ r ∧ any_excluded r = false ∧
          Forall (λ n, n ∉ exclude_dirs) dirnames) ∧
  (∀ r es, resolve fs r = Some (Dir es) → any_excluded r = false →
     (root ++ r, filter (λ n, not_excluded n = true) (dirnames_of es), filenames_of es)
       ∈ os_walk not_excluded root fs).
Proof.
  split.
  - intros dirpath dirnames filenames Hin. by apply os_walk_sound in Hin.
  - intros r es. apply os_walk_complete.
Qed.

(** X4, beyond the claims: the second loop never raises, and the index it
    builds lists [c] under [par] exactly when [par / c] leads to a collected
    file; no list names an entry twice and no key has an empty list. *)
Theorem X4_index_of_collected_files (root : path) (fs : node) :
  ∃ ch, build_children root (files root fs) ∅ = Some ch ∧
    index_nodup ch ∧ (∀ k, ch !! k ≠ Some []) ∧
    ∀ par c, has_child ch par c ↔
             ∃ rest, (root ++ par ++ c :: rest) ∈ files root fs.
Proof. apply built_index. Qed.

(** X5, beyond the claims: [sort_children] sorts the list of the index in
    place.  With the key in the index, the index holds the returned list under
    that key afterwards, a permutation of what it held; other keys, [files]
    and [lines] are as before.  Without the key it returns the empty list and
    adds no key.  A second call returns the same list and changes nothing. *)
Theorem X5_sort_children_in_place
    (fs : node) (lower : string → string) (parent : path) (g : globals) :
  g_files (sort_children fs lower parent g).2 = g_files g ∧
  g_lines (sort_children fs lower parent g).2 = g_lines g ∧
  (∀ k, k ≠ parent →
     g_children (sort_children fs lower parent g).2 !! k = g_children g !! k) ∧
  (g_children g !! parent = None → sort_children fs lower parent g = ([], g)) ∧
  (∀ l, g_children g !! parent = Some l →
     g_children (sort_children fs lower parent g).2 !! parent =
       Some (sort_children fs lower parent g).1 ∧
     (sort_children fs lower parent g).1 ≡ₚ l) ∧
  sort_children fs lower parent (sort_children fs lower parent g).2 =
    sort_children fs lower parent g.
Proof.
  unfold sort_children. destruct (g_children g !! parent) as [l|] eqn:E; simpl.
  - split_and!; [done|done| |done| |].
    + intros k Hk. by rewrite lookup_insert_ne.
    + intros l' [= <-]. rewrite lookup_insert_eq. split; [done|apply sorted_perm].
    + rewrite lookup_insert_eq. fold (child_lt fs lower parent).
      rewrite sorted_children_idem. unfold set_children. simpl.
      by rewrite insert_insert_eq.
  - rewrite E. split_and!; done.
Qed.

(** X6, beyond the claims: what [add_tree] appends to [lines] is the rendering
    of the index as the call found it.  Sorting lists in place on the way
    changes nothing that is drawn later, and the index is left listing the
    same entries. *)
Theorem X6_add_tree_draws_the_index
    (fs : node) (lower : string → string) (fuel : nat)
    (parent : path) (prefix : string) (g : globals) :
  (0 < fuel)%nat → (height fs ≤ fuel + length parent)%nat →
  ∃ g',
    add_tree fs lower fuel parent prefix g = Some g' ∧
    g_lines g' = g_lines g ++ render fs lower (g_children g) fuel parent prefix ∧
    (∀ par c, has_child (g_children g') par c ↔ has_child (g_children g) par c) ∧
    (∀ fuel' par pre,
       render fs lower (g_children g') fuel' par pre =
       render fs lower (g_children g) fuel' par pre).
Proof.
  intros Hfuel Hheight.
  destruct (add_tree_total fs lower fuel parent prefix g Hfuel Hheight) as [g' Ha].
  exists g'. destruct (add_tree_render _ _ _ _ _ _ _ Ha) as [He Hl].
  destruct (add_tree_spec _ _ _ _ _ _ _ Ha) as [_ Hc _].
  split_and!; [done|done|done|].
  intros fuel' par pre. by apply render_equiv.
Qed.

Lemma X6_witness :
  ∃ g',
    add_tree scenario ascii_lower 3 [] "" scenario_globals = Some g' ∧
    g_lines g' =
      g_lines scenario_globals ++
      render scenario ascii_lower (g_children scenario_globals) 3 [] "".
Proof.
  destruct (X6_add_tree_draws_the_index scenario ascii_lower 3 [] "" scenario_globals)
    as (g' & Ha & Hl & _); [lia|vm_compute; lia|].
  exists g'. split; [exact Ha|exact Hl].
Defined.

(** X7, beyond the claims: in a tree with unique names the drawn tree has,
    below the line of the root, exactly one line for every file and directory
    that lies on the way to a collected file, and no other line. *)
Theorem X7_tree_shows_each_entry_once
    (root : path) (fs : node) (lower : string → string) :
  wf_node fs = true →
  ∃ g new,
    draw_tree root fs lower = Some g ∧
    g_lines g = ([], path_str root) :: new ∧
    NoDup new.*1 ∧
    ∀ q, q ∈ new.*1 ↔
         q ≠ [] ∧ ∃ rest, (root ++ q ++ rest) ∈ files root fs.
Proof.
  intros Hwf. destruct (built_index root fs) as (ch & Hb & Hnd & _ & Hidx).
  destruct (draw_tree_total root fs lower) as [g Hg].
  pose proof Hg as Hg'. unfold draw_tree in Hg'. rewrite Hb in Hg'.
  destruct (add_tree_render fs lower (S (height fs)) [] "" _ g Hg') as [_ Hl].
  cbn [g_lines g_children append_line app] in Hl.
  exists g, (render fs lower ch (S (height fs)) [] ""). split_and!; [done|done| |].
  - by apply render_NoDup.
  - intros q. split.
    + intros (ln & -> & Hin)%list_elem_of_fmap.
      destruct (render_tags _ _ _ _ _ _ _ Hin) as (c & r & _ & E).
      split; [by rewrite E|].
      destruct (draw_tree_spec _ _ _ _ Hg) as (_ & C & _ & new & _ & L & Sh & _).
      assert (new = render fs lower ch (S (height fs)) [] "") as -> by congruence.
      rewrite Forall_forall in Sh. destruct (Sh _ Hin) as (par & c' & E1 & E2 & _).
      apply C in E2 as (p & rest & Hp & Hrel).
      apply relative_to_Some in Hrel. subst p. exists rest.
      by rewrite E1, <- app_assoc.
    + intros (Hq & rest & Hin). pose proof Hin as Hin'.
      rewrite files_files_from in Hin'.
      destruct (files_from_file _ _ _ Hwf Hin') as (rel & E & _ & Hf).
      apply app_inv_head in E. subst rel.
      apply (render_complete fs lower ch q (S (height fs)) [] "").
      * assert (length (q ++ rest) ≤ height fs)%nat as Hlen.
        { unfold is_file in Hf. destruct (resolve fs (q ++ rest)) eqn:E; [|done].
          by eapply resolve_height. }
        rewrite length_app in Hlen. lia.
      * by apply (route_of_file root fs ch rest q []).
Qed.

Lemma X7_witness :
  wf_node scenario = true ∧
  ∃ g new,
    draw_tree scenario_root scenario ascii_lower = Some g ∧
    g_lines g = ([], path_str scenario_root) :: new ∧
    NoDup new.*1 ∧ ["sub"; "b.txt"] ∈ new.*1 ∧ ["sub"] ∈ new.*1.
Proof.
  assert (wf_node scenario = true) as H1 by (vm_compute; reflexivity).
  split; [exact H1|].
  destruct (X7_tree_shows_each_entry_once scenario_root scenario ascii_lower H1)
    as (g & new & Hg & Hl & Hnd & Hin).
  exists g, new. split; [exact Hg|]. split; [exact Hl|]. split; [exact Hnd|]. split.
  - apply Hin. split; [discriminate|]. exists [].
    apply (bool_decide_unpack _). vm_compute. exact I.
  - apply Hin. split; [discriminate|]. exists ["b.txt"].
    apply (bool_decide_unpack _). vm_compute. exact I.
Defined.

(** X8, beyond the claims: the lines [add_tree] draws directly below [parent]
    come one per entry in sorted order, each the prefix, a connector and the
    name; the last entry has the closing connector and every other one the
    continuing connector.  Every line drawn is the prefix, one guide for each
    level below [parent], a connector and the name of what it shows. *)
Theorem X8_tree_line_texts
    (fs : node) (lower : string → string) (fuel : nat)
    (parent : path) (prefix : string) (g : globals) :
  (0 < fuel)%nat → (height fs ≤ fuel + length parent)%nat →
  ∃ g' new,
    add_tree fs lower fuel parent prefix g = Some g' ∧
    g_lines g' = g_lines g ++ new ∧
    filter (direct parent) new =
      imap (λ j c, (parent ++ [c],
                    prefix +:+
                    connector_at (length (sort_children fs lower parent g).1) j +:+ c))
        (sort_children fs lower parent g).1 ∧
    Forall (line_ok parent prefix) new.
Proof.
  intros Hfuel Hheight.
  destruct (add_tree_total fs lower fuel parent prefix g Hfuel Hheight) as [g' Ha].
  destruct (add_tree_render _ _ _ _ _ _ _ Ha) as [_ Hl].
  exists g', (render fs lower (g_children g) fuel parent prefix).
  split_and!; [done|done| |].
  - destruct fuel as [|fuel]; [lia|]. rewrite render_direct.
    assert ((sort_children fs lower parent g).1 =
            sorted (child_lt fs lower parent) (default [] (g_children g !! parent))) as ->;
      [|done].
    unfold sort_children. by destruct (g_children g !! parent).
  - apply Forall_forall. intros ln. apply render_text.
Qed.

Lemma X8_witness :
  ∃ g' new,
    add_tree scenario ascii_lower 3 [] "" scenario_globals = Some g' ∧
    g_lines g' = g_lines scenario_globals ++ new ∧
    filter (direct []) new =
      [ (["sub"], connector_more +:+ "sub");
        ([output_name], connector_more +:+ output_name);
        (["a.txt"], connector_last +:+ "a.txt") ] ∧
    Forall (line_ok [] "") new.
Proof.
  destruct (X8_tree_line_texts scenario ascii_lower 3 [] "" scenario_globals)
    as (g' & new & Ha & Hl & Hd & Ht); [lia|vm_compute; lia|].
  exists g', new. split; [exact Ha|]. split; [exact Hl|]. split; [|exact Ht].
  rewrite Hd. vm_compute. reflexivity.
Defined.

(** X9, beyond the claims: when nothing is collected (as in an empty
    root, or in one below an excluded name) the document is the two headings with the root
    line between them, and nothing else. *)
Theorem X9_export_of_nothing
    (root : path) (fs : node) (lower : string → string) (flushed : string → nat) :
  files root fs = [] → is_dir fs [output_name] = false →
  run root fs lower flushed =
    Some ("REPO TREE" +:+ nl +:+ "========" +:+ nl +:+ path_str root +:+ nl +:+ nl +:+
          "FILE CONTENTS (latest)" +:+ nl +:+ "======================" +:+ nl +:+ nl).
Proof.
  intros Hfiles Hd. unfold run, draw_tree. rewrite Hfiles. simpl.
  unfold sort_children. simpl. rewrite lookup_empty. simpl. rewrite Hd.
  unfold write_document, write. simpl. by rewrite append_nil_l, !append_assoc.
Qed.

Lemma X9_witness :
  files ["/"; "srv"; "dist"] scenario = [] ∧
  is_dir scenario [output_name] = false ∧
  run ["/"; "srv"; "dist"] scenario ascii_lower nothing_flushed =
    Some ("REPO TREE" +:+ nl +:+ "========" +:+ nl +:+
          path_str ["/"; "srv"; "dist"] +:+ nl +:+ nl +:+
          "FILE CONTENTS (latest)" +:+ nl +:+ "======================" +:+ nl +:+ nl).
Proof.
  assert (files ["/"; "srv"; "dist"] scenario = []) as H1 by (vm_compute; reflexivity).
  assert (is_dir scenario [output_name] = false) as H2 by (vm_compute; reflexivity).
  split; [exact H1|]. split; [exact H2|].
  exact (X9_export_of_nothing ["/"; "srv"; "dist"] scenario ascii_lower nothing_flushed
           H1 H2).
Defined.

(** X10, beyond the claims: unless a directory has the name of the export
    document, the document is written, and it is the heading, the root line
    and the lines of the tree, an empty line, the second heading, and the
    sections of the collected files in ascending order of their paths. *)
Theorem X10_document_layout
    (root : path) (fs : node) (lower : string → string) (flushed : string → nat) :
  is_dir fs [output_name] = false →
  ∃ ch secs,
    build_children root (files root fs) ∅ = Some ch ∧
    run_sections root fs lower flushed = Some secs ∧
    secs.*1 = sorted path_lt (files root fs) ∧
    run root fs lower flushed =
      Some ("REPO TREE" +:+ nl +:+ "========" +:+ nl +:+
            String.concat nl
              (path_str root :: (render fs lower ch (S (height fs)) [] "").*2) +:+
            nl +:+ nl +:+
            "FILE CONTENTS (latest)" +:+ nl +:+ "======================" +:+ nl +:+ nl +:+
            String.concat "" secs.*2).
Proof.
  intros Hd. destruct (built_index root fs) as (ch & Hb & _).
  destruct (run_sections_total root fs lower flushed Hd) as (g & secs & Hg & Hs & Hp & Hr).
  exists ch, secs. split_and!; [done|done|done|].
  rewrite Hr. f_equal.
  pose proof Hg as Hg'. unfold draw_tree in Hg'. rewrite Hb in Hg'.
  destruct (add_tree_render fs lower (S (height fs)) [] "" _ g Hg') as [_ Hl].
  cbn [g_lines g_children append_line app] in Hl.
  unfold preamble. rewrite Hl. simpl. by rewrite !append_assoc.
Qed.

Lemma X10_witness :
  is_dir scenario [output_name] = false ∧
  ∃ secs,
    run_sections scenario_root scenario ascii_lower nothing_flushed = Some secs ∧
    secs.*1 = sorted path_lt (files scenario_root scenario).
Proof.
  assert (is_dir scenario [output_name] = false) as H1 by (vm_compute; reflexivity).
  split; [exact H1|].
  destruct (X10_document_layout scenario_root scenario ascii_lower nothing_flushed H1)
    as (ch & secs & _ & Hs & Hp & _).
  exists secs. split; [exact Hs|exact Hp].
Defined.

(** X11, beyond the claims: [read_text_safely] raises exactly when reading the
    bytes raises, with the same error: no decoding leaves it.  The text it
    returns has no carriage return, and bytes that are UTF-8 without a
    carriage return come back as they are. *)
Theorem X11_read_text_safely_outcomes (read : path → read_result) (p : path) :
  (∀ msg, read_text_safely read p = Raised msg ↔ read p = ReadErr msg) ∧
  (∀ text, read_text_safely read p = Returned text →
     has_cr text = false ∧
     ∃ b, read p = ReadOk b ∧
          (utf8_valid b = true → text = universal_newlines b) ∧
          (utf8_valid b = false → text = universal_newlines (latin1_decode b)) ∧
          (utf8_valid b = true → has_cr b = false → text = b)).
Proof.
  unfold read_text_safely, utf8_decode, decoded.
  destruct (read p) as [b|msg0] eqn:E.
  - destruct (utf8_valid b) eqn:Hv.
    + split; [intros msg; split; done|]. intros text [= <-].
      split; [apply universal_newlines_no_cr|]. exists b.
      split_and!; [done|done|congruence|]. intros _ Hcr. by apply universal_newlines_id.
    + split; [intros msg; split; done|]. intros text [= <-].
      split; [apply universal_newlines_no_cr|]. exists b. split_and!; [done|congruence|done|congruence].
  - split; [|done]. intros msg. split; congruence.
Qed.

(** X12, beyond the claims: the delimiter line tells the file.  Splitting the
    path written in it at the slashes gives back the parts, and two relative
    paths with the same delimiter line are the same, when no part has a slash
    in it. *)
Theorem X12_delimiter_tells_the_path (rel : path) :
  rel ≠ [] → Forall (λ x, has_slash x = false) rel →
  split_slash (as_posix rel) = rel ∧
  ∀ rel', rel' ≠ [] → Forall (λ x, has_slash x = false) rel' →
          delimiter rel = delimiter rel' → rel = rel'.
Proof.
  intros Hne Hrel. split.
  - rewrite as_posix_concat by done. by apply split_slash_concat.
  - intros rel' Hne' Hrel'. by apply delimiter_inj.
Qed.

Lemma X12_witness :
  split_slash (as_posix ["sub"; "b.txt"]) = ["sub"; "b.txt"].
Proof.
  destruct (X12_delimiter_tells_the_path ["sub"; "b.txt"]) as [H _];
    [discriminate|repeat constructor|exact H].
Defined.

(** X13, beyond the claims: the run ends in an exception exactly when a
    directory has the name of the export document, so that it cannot be opened
    for writing.  Collecting the files, drawing the tree and the files that
    cannot be read or decoded never end it.  (The model takes the names of the
    tree for text that can be written, and the writes to the open document to
    succeed.) *)
Theorem X13_run_fails_only_on_opening
    (root : path) (fs : node) (lower : string → string) (flushed : string → nat) :
  run root fs lower flushed = None ↔ is_dir fs [output_name] = true.
Proof.
  split.
  - intros Hr. destruct (is_dir fs [output_name]) eqn:Hd; [done|].
    destruct (run_sections_total root fs lower flushed Hd) as (g & secs & _ & _ & _ & Hr').
    congruence.
  - intros Hd. unfold run. destruct (draw_tree root fs lower); simpl; [|done].
    by rewrite Hd.
Qed.
